(** * dangerzone/util.py: the stopwatch and the deadline-bounded read

    A shallow embedding of [Stopwatch] and [nonblocking_read] from
    [dangerzone/util.py], and the properties of the two that the
    specification states.

    Modelling choices.
    - Python's [float] timestamps and durations are rationals ([Q]): the
      comparisons and the subtraction of the source are exact here.
      Rounding is not modelled, nor are NaN and the infinities; what is
      stated of a whole call is stated relative to what the stopwatch
      answers.
    - Python's [int] is [Z], [bytes] is [list byte].
    - The operating system is a [world]: what [os.get_blocking] answers
      (or raises, on a descriptor that is not open), what [time.monotonic]
      reads, what [select] reports and what [os.read] hands over (or the
      errno it fails with).  A file object may fail to give its
      descriptor.  Creating and registering the selector is taken to
      succeed.
    - The exceptions are those that the source names and the OSError of
      the system calls; the class hierarchy of Python's exceptions is not
      modelled.
    - The calls made on the selector and on the descriptor are logged, each
      with its answer, so that "before any I/O" and "the selector was
      closed" are statements about the log.
    - An exception carries its message as a list of pieces, the literal
      text and the interpolated values of the f-string kept apart. *)

From Stdlib Require Import ZArith QArith List String Bool Lia Lqa.
From Stdlib Require Import NArith Sorted.
Import ListNotations.

Local Open Scope Z_scope.

(** ** Exceptions and results *)

Inductive piece : Type :=
| Text (s : string)
| Int (n : Z)
| Float (q : Q).

Definition message : Type := list piece.

Inductive exn : Type :=
| ValueError (m : message)
| RuntimeError (m : message)
| TimeoutError (m : message)
| OSError (errno : Z)
| AssertionError.

Inductive result (A : Type) : Type :=
| Return (a : A)
| Raise (e : exn).

Arguments Return {A} a.
Arguments Raise {A} e.

(** The integers interpolated into a message, in order. *)
Fixpoint ints (m : message) : list Z :=
  match m with
  | [] => []
  | Int n :: m' => n :: ints m'
  | _ :: m' => ints m'
  end.

Definition bytes : Type := list Byte.byte.

Definition len {A : Type} (l : list A) : Z := Z.of_nat (List.length l).

(** [x < y] on floats, as a boolean. *)
Definition Qltb (x y : Q) : bool := negb (Qle_bool y x).

(** ** class Stopwatch *)

Module Stopwatch.

Record t : Type := mk {
  timeout : option Q;
  start_time : option Q;
  end_time : option Q
}.

Definition __init__ (timeout : option Q) : t :=
  {| timeout := timeout; start_time := None; end_time := None |}.

(** [x or y] for [x : Optional[float]]: [None] and [0.0] are falsy. *)
Definition or_ (x : option Q) (y : Q) : Q :=
  match x with
  | None => y
  | Some v => if Qeq_bool v 0 then y else v
  end.

(** The property [elapsed]; [monotonic] is what [time.monotonic()] reads
    at the time of the query. *)
Definition elapsed (self : t) (monotonic : Q) : result Q :=
  match start_time self with
  | None => Raise (RuntimeError [Text "The stopwatch has not started yet"])
  | Some s => Return (or_ (end_time self) monotonic - s)%Q
  end.

(** The message of the [TimeoutError] of [remaining]: a plain string in
    the source (no [f] prefix), so nothing is interpolated. *)
Definition surpassed : message :=
  [Text "Timeout ({timeout}s) has been surpassed by {-remaining}s"].

(** The property [remaining]. *)
Definition remaining (self : t) (monotonic : Q) : result Q :=
  match timeout self with
  | None =>
      Raise (RuntimeError
               [Text "Cannot calculate remaining time without timeout"])
  | Some tmo =>
      match elapsed self monotonic with
      | Raise e => Raise e
      | Return el =>
          let remaining := (tmo - el)%Q in
          if Qltb remaining 0 then
            Raise (TimeoutError surpassed)
          else Return remaining
      end
  end.

Definition __enter__ (self : t) (monotonic : Q) : t :=
  {| timeout := timeout self;
     start_time := Some monotonic;
     end_time := end_time self |}.

Definition start (self : t) (monotonic : Q) : t := __enter__ self monotonic.

Definition __exit__ (self : t) (monotonic : Q) : t :=
  {| timeout := timeout self;
     start_time := start_time self;
     end_time := Some monotonic |}.

Definition stop (self : t) (monotonic : Q) : t := __exit__ self monotonic.

End Stopwatch.

(** ** The operating system *)

(** [fd : Union[IO[bytes], int]]: an [int], a file object whose
    [fileno()] answers, or a file object whose [fileno()] raises (a closed
    file, a stream in memory). *)
Inductive descriptor : Type :=
| RawFd (n : Z)
| FileObj (fileno : Z)
| Unusable (e : exn).

(** The number of the descriptor; -1 for the file object that has
    none, which the code never gets to use ([resolve] raises first). *)
Definition fileno (fd : descriptor) : Z :=
  match fd with
  | RawFd n => n
  | FileObj n => n
  | Unusable _ => -1
  end.

(** [if not isinstance(fd, int): fd = fd.fileno()]. *)
Definition resolve (fd : descriptor) : result Z :=
  match fd with
  | RawFd n => Return n
  | FileObj n => Return n
  | Unusable e => Raise e
  end.

(** What one [os.read] answers: bytes (none at end of stream) or an error. *)
Inductive os_reply : Type :=
| Data (chunk : bytes)
| Fails (errno : Z).

(** What one [select] answers: no event, or the descriptor is readable and
    [os.read(fd, n)] will then answer [read n]. *)
Inductive readiness : Type :=
| NoEvents
| Ready (read : Z -> os_reply).

(** One turn of the loop as the world sees it: the clock that
    [sw.remaining] reads, then the answer of [select]. *)
Record tick : Type := {
  monotonic : Q;
  select : readiness
}.

(** [get_blocking fd] is what [os.get_blocking(fd)] does: it answers, or
    raises (the OSError of a descriptor that is not open). *)
Record world : Type := {
  get_blocking : Z -> result bool;
  started_at : Q;
  ticks : nat -> tick
}.

Inductive syscall : Type :=
| Register (fd : Z)
| Select (wait : Q) (ready : bool)
| OsRead (fd : Z) (n : Z) (r : os_reply)
| Close.

(** The bytes that the reads of a log handed over. *)
Fixpoint received (l : list syscall) : bytes :=
  match l with
  | [] => []
  | OsRead _ _ (Data chunk) :: l' => chunk ++ received l'
  | _ :: l' => received l'
  end.

Definition is_close (c : syscall) : bool :=
  match c with
  | Close => true
  | _ => false
  end.

(** The selector of a log has been closed. *)
Definition released (l : list syscall) : bool := existsb is_close l.

(** Every read of the log asked for what was wanted at that point: [wanted]
    at first, less the bytes of each chunk handed over since. *)
Fixpoint asks_for (wanted : Z) (l : list syscall) : Prop :=
  match l with
  | [] => True
  | OsRead _ n (Data chunk) :: l' =>
      n = wanted /\ asks_for (wanted - len chunk) l'
  | OsRead _ n (Fails _) :: l' => n = wanted /\ asks_for wanted l'
  | _ :: l' => asks_for wanted l'
  end.

(** ** nonblocking_read *)

(** The local variables of the loop, and the log so far. *)
Record frame : Type := {
  iteration : nat;
  size : Z;
  buf : bytes;
  log : list syscall
}.

Definition logged (c : syscall) (f : frame) : frame :=
  {| iteration := iteration f; size := size f; buf := buf f;
     log := log f ++ [c] |}.

Definition set_buf (b : bytes) (f : frame) : frame :=
  {| iteration := iteration f; size := size f; buf := b; log := log f |}.

Definition set_size (n : Z) (f : frame) : frame :=
  {| iteration := iteration f; size := n; buf := buf f; log := log f |}.

Definition next (f : frame) : frame :=
  {| iteration := S (iteration f); size := size f; buf := buf f;
     log := log f |}.

(** How the loop is left: by [break], or by an exception. *)
Inductive leave : Type :=
| Broke (f : frame)
| Raised (e : exn) (f : frame).

Inductive step : Type :=
| Continue (f : frame)
| Leave (x : leave).

(** f"Timeout expired while reading {len(buf)}/{size} bytes" *)
Definition expired (got size : Z) : message :=
  [Text "Timeout expired while reading "; Int got; Text "/"; Int size;
   Text " bytes"].

(** The body of [while True]. *)
Definition body (w : world) (fd : Z) (sw : Stopwatch.t) (f : frame) : step :=
  let tk := ticks w (iteration f) in
  match Stopwatch.remaining sw (monotonic tk) with
  | Raise e => Leave (Raised e f)
  | Return wait =>
      match select tk with
      | NoEvents =>
          Leave (Raised
            (TimeoutError (expired (len (buf f)) (size f)))
            (logged (Select wait false) f))
      | Ready read =>
          let f := logged (Select wait true) f in
          let r := read (size f) in
          let f := logged (OsRead fd (size f) r) f in
          match r with
          | Fails errno => Leave (Raised (OSError errno) f)
          | Data chunk =>
              let f := set_buf (buf f ++ chunk) f in
              match chunk with
              | [] => Leave (Broke f)
              | _ :: _ =>
                  let f := set_size (size f - len chunk) f in
                  if size f <? 0 then Leave (Raised AssertionError f)
                  else if size f =? 0 then Leave (Broke f)
                  else Continue (next f)
              end
          end
      end
  end.

(** The loop, on fuel; [None] when the fuel runs out. *)
Fixpoint read_loop (fuel : nat) (w : world) (fd : Z) (sw : Stopwatch.t)
    (f : frame) : option leave :=
  match fuel with
  | O => None
  | S fuel' =>
      match body w fd sw f with
      | Continue f' => read_loop fuel' w fd sw f'
      | Leave x => Some x
      end
  end.

(** The frame on entry to the loop: the selector is registered, nothing has
    been read. *)
Definition entry (fd : Z) (size : Z) : frame :=
  {| iteration := 0; size := size; buf := []; log := [Register fd] |}.

Definition stopwatch_of (w : world) (timeout : Q) : Stopwatch.t :=
  Stopwatch.start (Stopwatch.__init__ (Some timeout)) (started_at w).

(** After the loop: an exception goes on to the caller as it is; after a
    [break] the selector is closed and [buf] returned. *)
Definition finish (x : leave) : result bytes * list syscall :=
  match x with
  | Raised e f => (Raise e, log f)
  | Broke f => (Return (buf f), log f ++ [Close])
  end.

(** The whole function: its result and the log of its calls.  Every turn
    of the loop that goes on has read at least one byte and still wants at
    least one, so [size] turns are enough fuel ([nonblocking_read_total]). *)
Definition nonblocking_read (w : world) (fd : descriptor) (size : Z)
    (timeout : Q) : option (result bytes * list syscall) :=
  match resolve fd with
  | Raise e => Some (Raise e, [])
  | Return fd =>
      match get_blocking w fd with
      | Raise e => Some (Raise e, [])
      | Return true =>
          Some (Raise (ValueError
                         [Text "Expected a non-blocking file descriptor"]),
                [])
      | Return false =>
          if size <=? 0 then
            Some (Raise (ValueError
                           [Text "Expected a positive size value (got ";
                            Int size; Text ")"]), [])
          else if Qle_bool timeout 0 then
            Some (Raise (ValueError
                           [Text "Expected a positive timeout value (got ";
                            Float timeout; Text ")"]), [])
          else
            option_map finish
              (read_loop (Z.to_nat size) w fd (stopwatch_of w timeout)
                 (entry fd size))
      end
  end.

(** The frames at the head of the loop during a call. *)
Inductive reaches (w : world) (fd : Z) (sw : Stopwatch.t) (size0 : Z)
  : frame -> Prop :=
| reaches_entry : reaches w fd sw size0 (entry fd size0)
| reaches_next (f f' : frame) :
    reaches w fd sw size0 f ->
    body w fd sw f = Continue f' ->
    reaches w fd sw size0 f'.

(** The ways through the body, as a relation: what follows a read ... *)
Inductive after_read (f : frame) : frame -> os_reply -> step -> Prop :=
| read_fails (g : frame) (errno : Z) :
    after_read f g (Fails errno) (Leave (Raised (OSError errno) g))
| read_eof (g : frame) :
    after_read f g (Data []) (Leave (Broke (set_buf (buf f ++ []) g)))
| read_too_much (g : frame) (chunk : bytes) :
    chunk <> [] ->
    size f - len chunk < 0 ->
    after_read f g (Data chunk)
      (Leave (Raised AssertionError
                (set_size (size f - len chunk)
                   (set_buf (buf f ++ chunk) g))))
| read_all (g : frame) (chunk : bytes) :
    chunk <> [] ->
    size f - len chunk = 0 ->
    after_read f g (Data chunk)
      (Leave (Broke (set_size (size f - len chunk)
                       (set_buf (buf f ++ chunk) g))))
| read_some (g : frame) (chunk : bytes) :
    chunk <> [] ->
    0 < size f - len chunk ->
    after_read f g (Data chunk)
      (Continue (next (set_size (size f - len chunk)
                         (set_buf (buf f ++ chunk) g)))).

(** ... and one turn of the loop ([body_turn] below: the body takes
    exactly one of these ways). *)
Inductive turn (w : world) (fd : Z) (sw : Stopwatch.t) (f : frame)
  : step -> Prop :=
| turn_deadline (e : exn) :
    Stopwatch.remaining sw (monotonic (ticks w (iteration f))) = Raise e ->
    turn w fd sw f (Leave (Raised e f))
| turn_no_events (wait : Q) :
    Stopwatch.remaining sw (monotonic (ticks w (iteration f)))
      = Return wait ->
    select (ticks w (iteration f)) = NoEvents ->
    turn w fd sw f (Leave (Raised
      (TimeoutError (expired (len (buf f)) (size f)))
      (logged (Select wait false) f)))
| turn_read (wait : Q) (read : Z -> os_reply) (s : step) :
    Stopwatch.remaining sw (monotonic (ticks w (iteration f)))
      = Return wait ->
    select (ticks w (iteration f)) = Ready read ->
    after_read f (logged (OsRead fd (size f) (read (size f)))
                    (logged (Select wait true) f)) (read (size f)) s ->
    turn w fd sw f s.

(** The descriptor is there, and [os.get_blocking] answers for it. *)
Definition answers (w : world) (fd : descriptor) (blocking : bool) : Prop :=
  resolve fd = Return (fileno fd) /\
  get_blocking w (fileno fd) = Return blocking.

(** A call passed the validation of its arguments. *)
Definition valid (w : world) (fd : descriptor) (size : Z) (timeout : Q)
  : Prop :=
  answers w fd false /\ 0 < size /\ (0 < timeout)%Q.

(** [os.read] never hands over more than it was asked for. *)
Definition well_behaved (w : world) : Prop :=
  forall (i : nat) (read : Z -> os_reply) (n : Z) (chunk : bytes),
    select (ticks w i) = Ready read ->
    read n = Data chunk ->
    len chunk <= n.

Definition is_eof (c : syscall) : bool :=
  match c with
  | OsRead _ _ (Data []) => true
  | _ => false
  end.

(** A read of the log met the end of the stream. *)
Definition saw_eof (l : list syscall) : bool := existsb is_eof l.

(** What holds of every frame at the head of the loop, in a call that
    asked for [size0] bytes. *)
Record steady (size0 : Z) (f : frame) : Prop := {
  steady_size : size f = size0 - len (buf f);
  steady_wanted : 0 < size f;
  steady_turns : Z.of_nat (iteration f) <= len (buf f);
  steady_buf : received (log f) = buf f;
  steady_open : released (log f) = false;
  steady_no_eof : saw_eof (log f) = false;
  steady_asks : asks_for size0 (log f)
}.

(** ** Worlds to run the code in *)

Definition nonblocking : Z -> result bool := fun _ => Return false.

(** A read that hands over the first [n] bytes of what is available
    (EINVAL for a negative [n]). *)
Definition hand_over (avail : bytes) : Z -> os_reply :=
  fun n => if n <? 0 then Fails 22 else Data (firstn (Z.to_nat n) avail).

(** The clock of turn [i], a tenth of a second per turn. *)
Definition tenths (i : nat) : Q := Z.of_nat i # 10.

(** The descriptor never produces data. *)
Definition idle : world :=
  {| get_blocking := nonblocking;
     started_at := 0;
     ticks := fun _ => {| monotonic := 0; select := NoEvents |} |}.

(** The clock has run two seconds by the first query of [remaining]. *)
Definition late : world :=
  {| get_blocking := nonblocking;
     started_at := 0;
     ticks := fun _ => {| monotonic := 2; select := NoEvents |} |}.

(** Two bytes arrive per turn, forever. *)
Definition trickle : world :=
  {| get_blocking := nonblocking;
     started_at := 0;
     ticks := fun i =>
       {| monotonic := tenths i;
          select := Ready (hand_over [Byte.x61; Byte.x62]) |} |}.

(** Two bytes arrive in the first turn, then nothing. *)
Definition stalls : world :=
  {| get_blocking := nonblocking;
     started_at := 0;
     ticks := fun i =>
       {| monotonic := tenths i;
          select := match i with
                    | O => Ready (hand_over [Byte.x61; Byte.x62])
                    | S _ => NoEvents
                    end |} |}.

(** Five bytes arrive in the first turn, then the stream ends. *)
Definition closing : world :=
  {| get_blocking := nonblocking;
     started_at := 0;
     ticks := fun i =>
       {| monotonic := tenths i;
          select := match i with
                    | O => Ready (hand_over
                             [Byte.x68; Byte.x65; Byte.x6c; Byte.x6c; Byte.x6f])
                    | S _ => Ready (hand_over [])
                    end |} |}.

(** The log of [nonblocking_read trickle (RawFd 3) 5 1]. *)
Definition trickle_log : list syscall :=
  [Register 3;
   Select (10 # 10) true; OsRead 3 5 (Data [Byte.x61; Byte.x62]);
   Select (9 # 10) true; OsRead 3 3 (Data [Byte.x61; Byte.x62]);
   Select (8 # 10) true; OsRead 3 1 (Data [Byte.x61]);
   Close].

(** The frame of [nonblocking_read closing (FileObj 4) 100 1] at the head
    of the second turn. *)
Definition closing_second : frame :=
  {| iteration := 1;
     size := 95;
     buf := [Byte.x68; Byte.x65; Byte.x6c; Byte.x6c; Byte.x6f];
     log := [Register 4; Select (10 # 10) true;
             OsRead 4 100
               (Data [Byte.x68; Byte.x65; Byte.x6c; Byte.x6c; Byte.x6f])] |}.

(** An [os.read] that hands over three bytes whatever it is asked for. *)
Definition rude : world :=
  {| get_blocking := nonblocking;
     started_at := 0;
     ticks := fun i =>
       {| monotonic := tenths i;
          select := Ready (fun _ => Data [Byte.x61; Byte.x62; Byte.x63]) |} |}.

(** The descriptor is in blocking mode. *)
Definition blocking : world :=
  {| get_blocking := fun _ => Return true;
     started_at := 0;
     ticks := ticks trickle |}.

(** No descriptor is open: [os.get_blocking] raises OSError with EBADF. *)
Definition unopened : world :=
  {| get_blocking := fun _ => Raise (OSError 9);
     started_at := 0;
     ticks := ticks trickle |}.

(** A stopwatch with a one-second timeout, started when the clock read 0. *)
Definition one_second : Stopwatch.t :=
  Stopwatch.start (Stopwatch.__init__ (Some 1%Q)) 0%Q.

(** A stopwatch started and stopped while the clock read 0. *)
Definition stopped_at_zero : Stopwatch.t :=
  Stopwatch.stop (Stopwatch.start (Stopwatch.__init__ None) 0%Q) 0%Q.

(** ** Strings *)

(** A Python [str]: its code points. *)
Definition pystr : Type := list N.

(** A literal, written in ASCII. *)
Definition str_of (s : string) : pystr :=
  map Ascii.N_of_ascii (list_ascii_of_string s).

(** [char in s] for a one-character [char]. *)
Definition contains (s : pystr) (char : N) : bool := existsb (N.eqb char) s.

(** The constants of Python's [string] module that [string.printable] is
    made of, as [Lib/string.py] writes them. *)
Module pystring.

Definition whitespace : pystr := [32; 9; 10; 13; 11; 12]%N.
Definition ascii_lowercase : pystr := str_of "abcdefghijklmnopqrstuvwxyz".
Definition ascii_uppercase : pystr := str_of "ABCDEFGHIJKLMNOPQRSTUVWXYZ".
Definition ascii_letters : pystr := ascii_lowercase ++ ascii_uppercase.
Definition digits : pystr := str_of "0123456789".
Definition punctuation : pystr :=
  str_of "!" ++ [34%N] ++ str_of "#$%&'()*+,-./:;<=>?@[\]^_`{|}~".
Definition printable : pystr :=
  digits ++ ascii_letters ++ punctuation ++ whitespace.

End pystring.

(** [str.isspace] on one code point, the characters that [str.strip()]
    removes. *)
Definition isspace (c : N) : bool :=
  ((9 <=? c) && (c <=? 13) || (28 <=? c) && (c <=? 32)
   || (c =? 133) || (c =? 160) || (c =? 5760)
   || (8192 <=? c) && (c <=? 8202)
   || (c =? 8232) || (c =? 8233) || (c =? 8239) || (c =? 8287)
   || (c =? 12288))%N.

Fixpoint lstrip (s : pystr) : pystr :=
  match s with
  | [] => []
  | c :: s' => if isspace c then lstrip s' else s
  end.

Definition rstrip (s : pystr) : pystr := rev (lstrip (rev s)).

Definition strip (s : pystr) : pystr := rstrip (lstrip s).

(** ** replace_control_chars *)

(** The [for] loop, [sanitized_str] being what has been put together so
    far. *)
Fixpoint sanitize (untrusted_str : pystr) (sanitized_str : pystr) : pystr :=
  match untrusted_str with
  | [] => sanitized_str
  | char :: rest =>
      sanitize rest
        (sanitized_str ++
         (if contains pystring.printable char then [char] else str_of "_"))
  end.

Definition replace_control_chars (untrusted_str : pystr) : pystr :=
  sanitize untrusted_str [].

(** ** get_resource_path and get_version *)

Module Resources.

(** What the code uses of [pathlib]; the library itself is not modelled. *)
Record pathlib : Type := {
  Path : Type;
  path : pystr -> Path;
  parent : Path -> Path;
  joinpath : Path -> list pystr -> Path;
  to_str : Path -> pystr
}.

Inductive error : Type :=
| NotImplementedError (m : pystr)
| FileNotFoundError
| OtherError (errno : Z).

Inductive outcome (A : Type) : Type :=
| Ok (a : A)
| Err (e : error).

Arguments Ok {A} a.
Arguments Err {A} e.

(** The interpreter and the machine: [getattr(sys, "dangerzone_dev",
    False)], [platform.system()], [__file__], [sys.executable],
    [sys.prefix], and what opening a file and reading all of it gives. *)
Record host : Type := {
  dangerzone_dev : bool;
  system : pystr;
  __file__ : pystr;
  executable : pystr;
  prefix : pystr;
  read : pystr -> outcome pystr
}.

Definition str_eqb (a b : pystr) : bool :=
  if list_eq_dec N.eq_dec a b then true else false.

Definition get_resource_path (P : pathlib) (h : host) (filename : pystr)
  : outcome pystr :=
  let prefix : outcome (Path P) :=
    if dangerzone_dev h then
      let project_root := parent P (parent P (path P (__file__ h))) in
      Ok (joinpath P project_root [str_of "share"])
    else if str_eqb (system h) (str_of "Darwin") then
      let bin_path := path P (executable h) in
      let app_path := parent P (parent P bin_path) in
      Ok (joinpath P app_path [str_of "Resources"; str_of "share"])
    else if str_eqb (system h) (str_of "Linux") then
      Ok (joinpath P (path P (prefix h))
            [str_of "share"; str_of "dangerzone"])
    else if str_eqb (system h) (str_of "Windows") then
      let exe_path := path P (executable h) in
      let dz_install_path := parent P exe_path in
      Ok (joinpath P dz_install_path [str_of "share"])
    else
      Err (NotImplementedError (str_of "Unsupported system " ++ system h))
  in
  match prefix with
  | Err e => Err e
  | Ok prefix =>
      let resource_path := joinpath P prefix [filename] in
      Ok (to_str P resource_path)
  end.

(** The body of the [try]: find the file, read it, strip it. *)
Definition read_version (P : pathlib) (h : host) : outcome pystr :=
  match get_resource_path P h (str_of "version.txt") with
  | Err e => Err e
  | Ok name =>
      match read h name with
      | Err e => Err e
      | Ok text => Ok (strip text)
      end
  end.

Definition get_version (P : pathlib) (h : host) : outcome pystr :=
  match read_version P h with
  | Err FileNotFoundError => Ok (str_of "unknown")
  | r => r
  end.

(** Paths as lists of components, to run the code on. *)
Definition components : pathlib :=
  {| Path := list pystr;
     path := fun s => [s];
     parent := fun p => removelast p;
     joinpath := fun p l => p ++ l;
     to_str := fun p => List.concat (map (fun c => str_of "/" ++ c) p) |}.

(** A Linux installation whose [version.txt] reads "0.4.1" and a newline;
    any other file is missing. *)
Definition installed : host :=
  {| dangerzone_dev := false;
     system := str_of "Linux";
     __file__ := str_of "util.py";
     executable := str_of "python3";
     prefix := str_of "usr";
     read := fun name =>
       if str_eqb name (str_of "/usr/share/dangerzone/version.txt")
       then Ok (str_of "0.4.1" ++ [10%N])
       else Err FileNotFoundError |}.

(** The same installation, on a system the code does not know. *)
Definition unsupported : host :=
  {| dangerzone_dev := false;
     system := str_of "FreeBSD";
     __file__ := __file__ installed;
     executable := executable installed;
     prefix := prefix installed;
     read := read installed |}.

End Resources.

(** ** More about logs, and more worlds *)

(** The waits that the polls of a log were given. *)
Fixpoint waits (l : list syscall) : list Q :=
  match l with
  | [] => []
  | Select wait _ :: l' => wait :: waits l'
  | _ :: l' => waits l'
  end.

Definition is_read (c : syscall) : bool :=
  match c with
  | OsRead _ _ _ => true
  | _ => false
  end.

(** The number of reads of a log. *)
Definition reads (l : list syscall) : nat := List.length (filter is_read l).



(** Polls that reported the descriptor ready, each followed by one read. *)
Inductive polled : list syscall -> Prop :=
| polled_nil : polled []
| polled_turn (wait : Q) (fd n : Z) (r : os_reply) (l : list syscall) :
    polled l -> polled (Select wait true :: OsRead fd n r :: l).

(** The clock of the world never runs backwards. *)
Definition clock_monotone (w : world) : Prop :=
  (forall i : nat, started_at w <= monotonic (ticks w i))%Q /\
  (forall i j : nat,
     (i <= j)%nat -> monotonic (ticks w i) <= monotonic (ticks w j))%Q.

(** Two bytes arrive in the first turn, then [os.read] fails with EIO. *)
Definition broken : world :=
  {| get_blocking := nonblocking;
     started_at := 0;
     ticks := fun i =>
       {| monotonic := tenths i;
          select := match i with
                    | O => Ready (hand_over [Byte.x61; Byte.x62])
                    | S _ => Ready (fun _ => Fails 5)
                    end |} |}.

(** The frame of a call for five bytes on [trickle], [stalls] or [broken]
    at the head of the second turn. *)
Definition second_turn : frame :=
  {| iteration := 1;
     size := 3;
     buf := [Byte.x61; Byte.x62];
     log := [Register 3; Select (10 # 10) true;
             OsRead 3 5 (Data [Byte.x61; Byte.x62])] |}.

(** What is left of the timeout of a call when the clock is read in
    turn [j]. *)
Definition budget (w : world) (timeout : Q) (j : nat) : Q :=
  (timeout - (monotonic (ticks w j) - started_at w))%Q.

(** Two bytes are there in every turn, and two seconds pass between two
    turns. *)
Definition overdue : world :=
  {| get_blocking := nonblocking;
     started_at := 0;
     ticks := fun i =>
       {| monotonic := tenths (20 * i);
          select := Ready (hand_over [Byte.x61; Byte.x62]) |} |}.

(** A string that neither starts nor ends with a character of
    [isspace]. *)
Definition stripped (s : pystr) : bool :=
  match s with
  | [] => true
  | c :: _ => negb (isspace c) && negb (isspace (last s c))
  end.

(** * Properties *)

(** ** The stopwatch *)

Section StopwatchFacts.

Import Stopwatch.
Local Open Scope Q_scope.

Lemma Qltb_lt (x y : Q) : Qltb x y = true <-> x < y.
Proof.
  unfold Qltb. rewrite negb_true_iff.
  destruct (Qle_bool y x) eqn:E.
  - apply Qle_bool_iff in E. split; [discriminate | lra].
  - split; [intros _ | reflexivity].
    apply Qnot_le_lt. intro H. apply Qle_bool_iff in H. congruence.
Qed.

Lemma Qltb_ge (x y : Q) : Qltb x y = false <-> y <= x.
Proof.
  destruct (Qltb x y) eqn:E.
  - apply Qltb_lt in E. split; [discriminate | lra].
  - split; [intros _ | reflexivity].
    apply Qnot_lt_le. intro H. apply Qltb_lt in H. congruence.
Qed.

Lemma or_truthy (v y : Q) : ~ v == 0 -> or_ (Some v) y = v.
Proof.
  intro H. unfold or_. destruct (Qeq_bool v 0) eqn:E; [|reflexivity].
  apply Qeq_bool_iff in E. contradiction.
Qed.

Lemma or_falsy (v y : Q) : v == 0 -> or_ (Some v) y = y.
Proof.
  intro H. unfold or_. apply Qeq_bool_iff in H. now rewrite H.
Qed.

Lemma elapsed_started (self : t) (s now : Q) :
  start_time self = Some s ->
  elapsed self now = Return (or_ (end_time self) now - s).
Proof. intro H. unfold elapsed. now rewrite H. Qed.

Lemma remaining_raises (self : t) (tmo el now : Q) :
  timeout self = Some tmo ->
  elapsed self now = Return el ->
  tmo - el < 0 ->
  remaining self now =
  Raise (TimeoutError surpassed).
Proof.
  intros Ht He Hlt. unfold remaining. rewrite Ht, He.
  apply Qltb_lt in Hlt. now rewrite Hlt.
Qed.

Lemma remaining_returns (self : t) (tmo el now : Q) :
  timeout self = Some tmo ->
  elapsed self now = Return el ->
  0 <= tmo - el ->
  remaining self now = Return (tmo - el).
Proof.
  intros Ht He Hge. unfold remaining. rewrite Ht, He.
  apply Qltb_ge in Hge. now rewrite Hge.
Qed.

(** C6: on a started stopwatch, [remaining] fails with a RuntimeError
    when no timeout was configured; with a timeout it computes
    timeout - elapsed, raises a TimeoutError when that is negative and
    returns it otherwise. *)
Theorem remaining_spec (self : t) (s now : Q) :
  start_time self = Some s ->
  (timeout self = None ->
   remaining self now =
   Raise (RuntimeError
            [Text "Cannot calculate remaining time without timeout"])) /\
  (forall tmo : Q, timeout self = Some tmo ->
   exists el : Q,
     elapsed self now = Return el /\
     (tmo - el < 0 ->
      exists m, remaining self now = Raise (TimeoutError m)) /\
     (0 <= tmo - el -> remaining self now = Return (tmo - el))).
Proof.
  intro Hs. split.
  - intro Hn. unfold remaining. now rewrite Hn.
  - intros tmo Ht. exists (or_ (end_time self) now - s).
    pose proof (elapsed_started self s now Hs) as He.
    split; [exact He|]. split.
    + intro Hlt. eexists.
      now apply remaining_raises
        with (tmo := tmo) (el := or_ (end_time self) now - s).
    + intro Hge. now apply remaining_returns.
Qed.

Lemma remaining_spec_witness :
  (timeout one_second = None ->
   remaining one_second (1 # 4) =
   Raise (RuntimeError
            [Text "Cannot calculate remaining time without timeout"])) /\
  (forall tmo : Q, timeout one_second = Some tmo ->
   exists el : Q,
     elapsed one_second (1 # 4) = Return el /\
     (tmo - el < 0 ->
      exists m, remaining one_second (1 # 4) = Raise (TimeoutError m)) /\
     (0 <= tmo - el -> remaining one_second (1 # 4) = Return (tmo - el))).
Proof. exact (remaining_spec one_second 0 (1 # 4) eq_refl). Defined.

(** C7, as the code has it: on a started stopwatch with a timeout above
    zero, [remaining] raises a TimeoutError whenever the elapsed time is
    above the timeout; when the elapsed time equals the timeout it
    returns a remaining time of zero. *)
Theorem remaining_deadline (self : t) (s tmo el now : Q) :
  timeout self = Some tmo ->
  0 < tmo ->
  start_time self = Some s ->
  elapsed self now = Return el ->
  (tmo < el ->
   remaining self now =
   Raise (TimeoutError surpassed)) /\
  (el == tmo ->
   remaining self now = Return (tmo - el) /\ tmo - el == 0).
Proof.
  intros Ht _ _ He. split.
  - intro Hlt. apply remaining_raises with (tmo := tmo) (el := el); auto. lra.
  - intro Heq. split; [|lra]. apply remaining_returns; auto. lra.
Qed.

Lemma remaining_deadline_witness :
  (1 < 3 - 0 ->
   remaining one_second 3 =
   Raise (TimeoutError surpassed)) /\
  (3 - 0 == 1 ->
   remaining one_second 3 = Return (1 - (3 - 0)) /\ 1 - (3 - 0) == 0).
Proof.
  apply (remaining_deadline one_second 0 1 (3 - 0) 3).
  - reflexivity.
  - reflexivity.
  - reflexivity.
  - reflexivity.
Defined.

(** C7 as stated fails: with a timeout of one second and an elapsed time
    of exactly one second, [remaining] returns (zero) and does not
    raise. *)
Lemma remaining_at_deadline_returns :
  timeout one_second = Some 1 /\
  elapsed one_second 1 = Return (1 - 0) /\
  1 <= 1 - 0 /\
  remaining one_second 1 = Return (1 - (1 - 0)) /\
  ~ (exists m, remaining one_second 1 = Raise (TimeoutError m)).
Proof.
  repeat split.
  - discriminate.
  - intros [m H]. discriminate H.
Qed.

Lemma stop_sets_end_time (self : t) (now : Q) :
  end_time (stop self now) = Some now /\
  start_time (stop self now) = start_time self.
Proof. split; reflexivity. Qed.

(** What [elapsed] does answer once stopped, when the clock did not read
    zero at the stop: the time from start to stop, whenever asked. *)
Lemma elapsed_frozen (self : t) (s e now : Q) :
  start_time self = Some s ->
  end_time self = Some e ->
  ~ e == 0 ->
  elapsed self now = Return (e - s).
Proof.
  intros Hs He Hnz. rewrite (elapsed_started self s now Hs), He.
  now rewrite or_truthy.
Qed.

(** C9 fails on the code where the clock read 0.0 at [stop()]: [elapsed]
    tests [end_time] for truth, not against [None], so a stopwatch
    started and stopped at clock 0 still follows the clock; asked at 5
    and at 7 it answers 5 and 7, not the frozen 0. *)
Theorem elapsed_not_frozen_when_stopped_at_zero :
  start_time stopped_at_zero = Some 0 /\
  end_time stopped_at_zero = Some 0 /\
  elapsed stopped_at_zero 5 = Return (5 - 0) /\
  elapsed stopped_at_zero 7 = Return (7 - 0) /\
  ~ 5 - 0 == 0 - 0.
Proof. repeat split. discriminate. Qed.

(** [start()] after [stop()] keeps [end_time]; when the clock did not
    read zero at the stop, every later [elapsed] answers that stale
    end_time minus the new start_time, whatever the clock reads, and the
    answer is negative when the clock has advanced between the stop and
    the new start. *)
Theorem restart_keeps_end_time (self : t) (stopped restarted now : Q) :
  ~ stopped == 0 ->
  let sw := start (stop self stopped) restarted in
  end_time sw = Some stopped /\
  start_time sw = Some restarted /\
  elapsed sw now = Return (stopped - restarted) /\
  (stopped < restarted -> stopped - restarted < 0).
Proof.
  intros Hnz sw. repeat split.
  - apply elapsed_frozen; auto.
  - lra.
Qed.

Lemma restart_keeps_end_time_witness :
  let sw := start (stop one_second 4) 6 in
  end_time sw = Some 4 /\
  start_time sw = Some 6 /\
  elapsed sw 9 = Return (4 - 6) /\
  (4 < 6 -> 4 - 6 < 0).
Proof.
  apply (restart_keeps_end_time one_second 4 6 9). discriminate.
Defined.

(** C10 fails on the code where the clock read 0.0 at the stop:
    [start()] has kept [end_time], but [elapsed] takes the 0.0 for no
    end_time at all (the truth test of C9); restarted at 3 and asked at
    10, it answers 10 - 3, the time since the new start, and not the
    stale 0 - 3. *)
Theorem restart_after_stop_at_zero :
  end_time (start stopped_at_zero 3) = Some 0 /\
  start_time (start stopped_at_zero 3) = Some 3 /\
  elapsed (start stopped_at_zero 3) 10 = Return (10 - 3) /\
  elapsed (start stopped_at_zero 3) 10 <> Return (0 - 3).
Proof. repeat split. discriminate. Qed.

End StopwatchFacts.

(** ** The loop of nonblocking_read *)

Section LoopFacts.

Variables (w : world) (fd : Z) (sw : Stopwatch.t).

Lemma len_app {A : Type} (l l' : list A) : len (l ++ l') = len l + len l'.
Proof. unfold len. rewrite length_app. lia. Qed.

Lemma len_cons_pos {A : Type} (a : A) (l : list A) : 0 < len (a :: l).
Proof. unfold len. cbn [List.length]. lia. Qed.

(** The body takes exactly one of these ways. *)
Lemma body_turn (f : frame) : turn w fd sw f (body w fd sw f).
Proof.
  unfold body.
  destruct (Stopwatch.remaining sw _) as [wait | e] eqn:Hrem.
  2: now apply turn_deadline.
  destruct (select _) as [| read] eqn:Hsel.
  1: now apply turn_no_events.
  eapply turn_read; [exact Hrem | exact Hsel |].
  cbn [logged set_buf set_size next size buf iteration log].
  destruct (read (size f)) as [chunk | errno].
  2: apply read_fails.
  destruct chunk as [| b chunk].
  1: apply read_eof.
  destruct (size f - len (b :: chunk) <? 0) eqn:Hneg.
  - apply Z.ltb_lt in Hneg. now apply read_too_much.
  - apply Z.ltb_ge in Hneg.
    destruct (size f - len (b :: chunk) =? 0) eqn:Hzero.
    + apply Z.eqb_eq in Hzero. now apply read_all.
    + apply Z.eqb_neq in Hzero. apply read_some; [discriminate | lia].
Qed.

Lemma log_app_two (l : list syscall) (a b : syscall) :
  (l ++ [a]) ++ [b] = l ++ [a; b].
Proof. now rewrite <- app_assoc. Qed.

(** The loop goes on only after a read that handed over some bytes and
    left some wanted. *)
Lemma body_continue (f f' : frame) :
  body w fd sw f = Continue f' ->
  exists (wait : Q) (read : Z -> os_reply) (chunk : bytes),
    Stopwatch.remaining sw (monotonic (ticks w (iteration f)))
      = Return wait /\
    select (ticks w (iteration f)) = Ready read /\
    read (size f) = Data chunk /\
    chunk <> [] /\
    0 < size f - len chunk /\
    f' = {| iteration := S (iteration f);
            size := size f - len chunk;
            buf := buf f ++ chunk;
            log := log f ++ [Select wait true;
                             OsRead fd (size f) (Data chunk)] |}.
Proof.
  intro H. pose proof (body_turn f) as T. rewrite H in T.
  inversion T as [ | | wait read s Hrem Hsel Hafter]; subst.
  inversion Hafter as [ | | | | g chunk Hne Hpos Hg Hr Hs]; subst.
  exists wait, read, chunk. repeat split; auto.
  unfold next, set_size, set_buf, logged; cbn.
  now rewrite log_app_two.
Qed.

(** The loop is left by [break] after a read that met the end of the
    stream, or that handed over exactly what was wanted. *)
Lemma body_broke (f f' : frame) :
  body w fd sw f = Leave (Broke f') ->
  exists (wait : Q) (read : Z -> os_reply) (chunk : bytes),
    Stopwatch.remaining sw (monotonic (ticks w (iteration f)))
      = Return wait /\
    select (ticks w (iteration f)) = Ready read /\
    read (size f) = Data chunk /\
    (chunk = [] \/ chunk <> [] /\ size f - len chunk = 0) /\
    f' = {| iteration := iteration f;
            size := size f - len chunk;
            buf := buf f ++ chunk;
            log := log f ++ [Select wait true;
                             OsRead fd (size f) (Data chunk)] |}.
Proof.
  intro H. pose proof (body_turn f) as T. rewrite H in T.
  inversion T as [ | | wait read s Hrem Hsel Hafter]; subst.
  inversion Hafter
    as [ | g Hg Hr Hs | | g chunk Hne Hz Hg Hr Hs | ]; subst.
  - exists wait, read, []. repeat split; auto.
    unfold set_buf, logged; cbn.
    rewrite log_app_two. f_equal. unfold len; cbn. lia.
  - exists wait, read, chunk. repeat split; auto.
    unfold set_size, set_buf, logged; cbn.
    now rewrite log_app_two.
Qed.

(** The four ways the loop is left by an exception. *)
Lemma body_raised (f f' : frame) (e : exn) :
  body w fd sw f = Leave (Raised e f') ->
  (Stopwatch.remaining sw (monotonic (ticks w (iteration f))) = Raise e /\
   f' = f) \/
  (exists wait : Q,
     Stopwatch.remaining sw (monotonic (ticks w (iteration f)))
       = Return wait /\
     select (ticks w (iteration f)) = NoEvents /\
     e = TimeoutError (expired (len (buf f)) (size f)) /\
     f' = logged (Select wait false) f) \/
  (exists (wait : Q) (read : Z -> os_reply) (errno : Z),
     select (ticks w (iteration f)) = Ready read /\
     read (size f) = Fails errno /\
     e = OSError errno /\
     log f' = log f ++ [Select wait true;
                        OsRead fd (size f) (Fails errno)] /\
     buf f' = buf f) \/
  (exists (wait : Q) (read : Z -> os_reply) (chunk : bytes),
     select (ticks w (iteration f)) = Ready read /\
     read (size f) = Data chunk /\
     size f < len chunk /\
     e = AssertionError /\
     log f' = log f ++ [Select wait true;
                        OsRead fd (size f) (Data chunk)] /\
     buf f' = buf f ++ chunk).
Proof.
  intro H. pose proof (body_turn f) as T. rewrite H in T.
  inversion T as [e' Hrem | wait Hrem Hsel | wait read s Hrem Hsel Hafter];
    subst.
  - left. now split.
  - right; left. exists wait. repeat split; auto.
  - inversion Hafter
      as [g errno Hg Hr Hs | | g chunk Hne Hneg Hg Hr Hs | | ]; subst.
    + right; right; left. exists wait, read, errno.
      repeat split; auto. cbn. now rewrite log_app_two.
    + right; right; right. exists wait, read, chunk.
      repeat split; auto; [lia |]. cbn. now rewrite log_app_two.
Qed.

(** A read that meets the end of the stream leaves the loop by [break],
    with what had been accumulated. *)
Lemma body_eof (f : frame) (wait : Q) (read : Z -> os_reply) :
  Stopwatch.remaining sw (monotonic (ticks w (iteration f)))
    = Return wait ->
  select (ticks w (iteration f)) = Ready read ->
  read (size f) = Data [] ->
  body w fd sw f =
  Leave (Broke {| iteration := iteration f;
                  size := size f;
                  buf := buf f;
                  log := log f ++ [Select wait true;
                                   OsRead fd (size f) (Data [])] |}).
Proof.
  intros Hrem Hsel Hread. unfold body. rewrite Hrem, Hsel.
  cbn [logged size buf log iteration]. rewrite Hread.
  unfold set_buf; cbn [logged size buf log iteration].
  now rewrite app_nil_r, log_app_two.
Qed.

(** A read that hands over all that was wanted leaves it by [break]
    too. *)
Lemma body_filled (f : frame) (wait : Q) (read : Z -> os_reply)
    (chunk : bytes) :
  Stopwatch.remaining sw (monotonic (ticks w (iteration f)))
    = Return wait ->
  select (ticks w (iteration f)) = Ready read ->
  read (size f) = Data chunk ->
  chunk <> [] ->
  size f - len chunk = 0 ->
  body w fd sw f =
  Leave (Broke {| iteration := iteration f;
                  size := 0;
                  buf := buf f ++ chunk;
                  log := log f ++ [Select wait true;
                                   OsRead fd (size f) (Data chunk)] |}).
Proof.
  intros Hrem Hsel Hread Hne Hzero. unfold body. rewrite Hrem, Hsel.
  cbn [logged size buf log iteration]. rewrite Hread.
  destruct chunk as [| c chunk]; [congruence |].
  unfold set_size, set_buf; cbn [logged size buf log iteration].
  rewrite Hzero. cbn [Z.ltb Z.eqb Z.compare].
  now rewrite log_app_two.
Qed.

(** *** Fuel *)

Lemma read_loop_more_fuel (n m : nat) (f : frame) (x : leave) :
  read_loop n w fd sw f = Some x ->
  (n <= m)%nat ->
  read_loop m w fd sw f = Some x.
Proof.
  revert m f. induction n as [| n IH]; intros m f H Hle; [discriminate |].
  destruct m as [| m]; [lia |]. cbn [read_loop] in *.
  destruct (body w fd sw f) as [f' | y]; [| exact H].
  apply IH; [exact H | lia].
Qed.

(** [size] turns are enough. *)
Lemma read_loop_total (n : nat) (f : frame) :
  0 < size f ->
  (Z.to_nat (size f) <= n)%nat ->
  exists x : leave, read_loop n w fd sw f = Some x.
Proof.
  revert f. induction n as [| n IH]; intros f Hpos Hle; [lia |].
  cbn [read_loop]. destruct (body w fd sw f) as [f' | y] eqn:Hb.
  - destruct (body_continue f f' Hb)
      as (wait & read & chunk & _ & _ & _ & Hne & Hleft & ->).
    apply IH; cbn [size]; [exact Hleft |].
    destruct chunk as [| b chunk]; [congruence |].
    pose proof (len_cons_pos b chunk). lia.
  - now exists y.
Qed.

(** The loop ends in a frame that the call reaches. *)
Lemma read_loop_leaves (size0 : Z) (n : nat) (f : frame) (x : leave) :
  reaches w fd sw size0 f ->
  read_loop n w fd sw f = Some x ->
  exists g : frame,
    reaches w fd sw size0 g /\ body w fd sw g = Leave x.
Proof.
  revert f. induction n as [| n IH]; intros f Hr H; [discriminate |].
  cbn [read_loop] in H. destruct (body w fd sw f) as [f' | y] eqn:Hb.
  - apply (IH f'); [| exact H]. now apply reaches_next with (f := f).
  - injection H as ->. now exists f.
Qed.

(** A frame that the call reaches is one that the loop runs through. *)
Lemma reaches_runs (size0 : Z) (f : frame) (x : leave) :
  reaches w fd sw size0 f ->
  body w fd sw f = Leave x ->
  exists n : nat, read_loop n w fd sw (entry fd size0) = Some x.
Proof.
  intros Hr Hb.
  assert (Hrun : exists n, read_loop n w fd sw f = Some x).
  { exists 1%nat. cbn [read_loop]. now rewrite Hb. }
  clear Hb. induction Hr as [| f f' Hr IH Hstep]; [exact Hrun |].
  apply IH. destruct Hrun as [n Hn]. exists (S n).
  cbn [read_loop]. now rewrite Hstep.
Qed.

Lemma reaches_leaves (size0 : Z) (f : frame) (x : leave) :
  0 < size0 ->
  reaches w fd sw size0 f ->
  body w fd sw f = Leave x ->
  read_loop (Z.to_nat size0) w fd sw (entry fd size0) = Some x.
Proof.
  intros Hpos Hr Hb.
  destruct (reaches_runs size0 f x Hr Hb) as [n Hn].
  destruct (read_loop_total (Z.to_nat size0) (entry fd size0))
    as [y Hy]; [exact Hpos | cbn [entry size]; lia |].
  pose proof (read_loop_more_fuel _ (Nat.max n (Z.to_nat size0)) _ _ Hn
                (Nat.le_max_l _ _)) as H1.
  pose proof (read_loop_more_fuel _ (Nat.max n (Z.to_nat size0)) _ _ Hy
                (Nat.le_max_r _ _)) as H2.
  congruence.
Qed.

End LoopFacts.

(** ** nonblocking_read *)

Section ReadFacts.

Variables (w : world) (fd : descriptor) (size0 : Z) (timeout : Q).

Lemma received_app (l l' : list syscall) :
  received (l ++ l') = received l ++ received l'.
Proof.
  induction l as [| c l IH]; [reflexivity |].
  destruct c as [ | | ? ? [chunk | errno] | ]; cbn; auto.
  now rewrite IH, app_assoc.
Qed.

Lemma released_app (l l' : list syscall) :
  released (l ++ l') = released l || released l'.
Proof. apply existsb_app. Qed.

Lemma saw_eof_app (l l' : list syscall) :
  saw_eof (l ++ l') = saw_eof l || saw_eof l'.
Proof. apply existsb_app. Qed.

Lemma asks_for_app (n : Z) (l l' : list syscall) :
  asks_for n (l ++ l') <->
  asks_for n l /\ asks_for (n - len (received l)) l'.
Proof.
  revert n. induction l as [| c l IH]; intro n.
  - cbn. rewrite Z.sub_0_r. tauto.
  - destruct c as [ | | ? ? [chunk | errno] | ]; cbn; rewrite ?IH;
      try tauto.
    rewrite len_app.
    replace (n - (len chunk + len (received l)))
      with (n - len chunk - len (received l)) by lia.
    tauto.
Qed.

Lemma reaches_steady (f : frame) :
  0 < size0 ->
  reaches w (fileno fd) (stopwatch_of w timeout) size0 f ->
  steady size0 f.
Proof.
  intros Hpos Hr. induction Hr as [| f f' Hr IH Hstep].
  - split; cbn; auto; unfold len; cbn; lia.
  - destruct IH as [Hsize Hwant Hturns Hbuf Hopen Heof Hasks].
    destruct (body_continue _ _ _ f f' Hstep)
      as (wait & read & chunk & _ & _ & _ & Hne & Hleft & ->).
    destruct chunk as [| b chunk]; [congruence |].
    pose proof (len_cons_pos b chunk) as Hlen.
    split; cbn [size buf log iteration].
    + rewrite len_app. lia.
    + exact Hleft.
    + rewrite len_app. lia.
    + rewrite received_app, Hbuf. cbn. now rewrite app_nil_r.
    + rewrite released_app, Hopen. reflexivity.
    + rewrite saw_eof_app, Heof. reflexivity.
    + apply asks_for_app. split; [exact Hasks |].
      cbn. rewrite Hbuf. split; [lia | exact I].
Qed.

Hypothesis Hvalid : valid w fd size0 timeout.

Lemma nonblocking_read_loop :
  nonblocking_read w fd size0 timeout =
  option_map finish
    (read_loop (Z.to_nat size0) w (fileno fd) (stopwatch_of w timeout)
       (entry (fileno fd) size0)).
Proof.
  destruct Hvalid as ((Hfd & Hnb) & Hsize & Htmo). unfold nonblocking_read.
  rewrite Hfd, Hnb.
  destruct (size0 <=? 0) eqn:E; [apply Z.leb_le in E; lia |].
  destruct (Qle_bool timeout 0) eqn:E'; [| reflexivity].
  apply Qle_bool_iff in E'. lra.
Qed.

(** A call ends the way the body is left in some frame it reaches. *)
Lemma nonblocking_read_inv (out : result bytes * list syscall) :
  nonblocking_read w fd size0 timeout = Some out ->
  exists (g : frame) (x : leave),
    reaches w (fileno fd) (stopwatch_of w timeout) size0 g /\
    body w (fileno fd) (stopwatch_of w timeout) g = Leave x /\
    out = finish x.
Proof.
  rewrite nonblocking_read_loop. intro H.
  destruct (read_loop _ _ _ _ _) as [x |] eqn:Hloop; [| discriminate].
  injection H as <-.
  destruct (read_loop_leaves _ _ _ size0 _ _ x (reaches_entry _ _ _ _) Hloop)
    as (g & Hg & Hb).
  now exists g, x.
Qed.

(** And the other way round. *)
Lemma nonblocking_read_from (g : frame) (x : leave) :
  reaches w (fileno fd) (stopwatch_of w timeout) size0 g ->
  body w (fileno fd) (stopwatch_of w timeout) g = Leave x ->
  nonblocking_read w fd size0 timeout = Some (finish x).
Proof.
  intros Hg Hb. rewrite nonblocking_read_loop.
  rewrite (reaches_leaves _ _ _ size0 g x); auto.
  now destruct Hvalid as (_ & Hsize & _).
Qed.

End ReadFacts.

(** The call always ends: the fuel is never used up. *)
Lemma nonblocking_read_total (w : world) (fd : descriptor) (size : Z)
    (timeout : Q) :
  exists out : result bytes * list syscall,
    nonblocking_read w fd size timeout = Some out.
Proof.
  unfold nonblocking_read.
  destruct (resolve fd) as [n | e]; [| eexists; reflexivity].
  destruct (get_blocking w n) as [[|] | e]; try (eexists; reflexivity).
  destruct (size <=? 0) eqn:E; [eexists; reflexivity |].
  destruct (Qle_bool timeout 0); [eexists; reflexivity |].
  apply Z.leb_gt in E.
  destruct (read_loop_total w n (stopwatch_of w timeout)
              (Z.to_nat size) (entry n size)) as [x Hx];
    [exact E | cbn; lia |].
  rewrite Hx. eexists; reflexivity.
Qed.

(** A call passes the validation, or is turned down with an exception
    before it has made any call. *)
Lemma validated_or_not (w : world) (fd : descriptor) (size0 : Z)
    (timeout : Q) :
  valid w fd size0 timeout \/
  exists e : exn, nonblocking_read w fd size0 timeout = Some (Raise e, []).
Proof.
  unfold nonblocking_read, valid, answers.
  destruct fd as [n | n | e]; cbn [resolve fileno];
    try (right; eexists; reflexivity);
    (destruct (get_blocking w n) as [[|] | e];
     try (right; eexists; reflexivity);
     destruct (size0 <=? 0) eqn:Hs; [right; eexists; reflexivity |];
     destruct (Qle_bool timeout 0) eqn:Ht; [right; eexists; reflexivity |];
     left; repeat split; [now apply Z.leb_gt |];
     apply Qnot_le_lt; intro H; apply Qle_bool_iff in H; congruence).
Qed.

(** *** The selector *)

(** A call that returns has closed its selector ... *)
Lemma return_closes_selector (w : world) (fd : descriptor) (size : Z)
    (timeout : Q) (b : bytes) (l : list syscall) :
  nonblocking_read w fd size timeout = Some (Return b, l) ->
  released l = true.
Proof.
  unfold nonblocking_read.
  destruct (resolve fd) as [n | e]; [| discriminate].
  destruct (get_blocking w n) as [[|] | e]; try discriminate.
  destruct (size <=? 0); [discriminate |].
  destruct (Qle_bool timeout 0); [discriminate |].
  destruct (read_loop _ _ _ _ _) as [[f | e f] |]; cbn; try discriminate.
  intro H. injection H as _ <-.
  rewrite released_app. cbn. apply orb_true_r.
Qed.

(** ... and a call that raises has not, whatever it raises. *)
Lemma raise_leaves_selector_open (w : world) (fd : descriptor) (size : Z)
    (timeout : Q) (e : exn) (l : list syscall) :
  nonblocking_read w fd size timeout = Some (Raise e, l) ->
  released l = false.
Proof.
  intro H.
  destruct (validated_or_not w fd size timeout) as [Hvalid | [e' He']].
  2: { rewrite He' in H. now injection H as _ <-. }
  destruct (nonblocking_read_inv w fd size timeout Hvalid _ H)
    as (g & x & Hg & Hb & Hout).
  destruct Hvalid as (_ & Hpos & _).
  destruct (reaches_steady w fd size timeout g Hpos Hg)
    as [_ _ _ _ Hopen _ _].
  destruct x as [f' | e' f']; [discriminate |].
  cbn in Hout. injection Hout as -> ->.
  destruct (body_raised _ _ _ _ _ _ Hb)
    as [[_ ->] | [(wait & _ & _ & _ & ->)
       | [(wait & read & errno & _ & _ & _ & -> & _)
         | (wait & read & chunk & _ & _ & _ & _ & -> & _)]]];
    cbn [log logged]; rewrite ?released_app, ?Hopen; reflexivity.
Qed.

(** C1 fails on the code: [sel.close()] is reached only after the loop, so
    an exception raised in the loop leaves the selector registered.  The
    descriptor never becomes ready, [read(d, 5, 0.2)]: the call raises the
    TimeoutError, and its log holds the registration and the poll but no
    close. *)
Theorem timeout_leaves_selector_registered :
  nonblocking_read idle (RawFd 3) 5 (1 # 5) =
  Some (Raise (TimeoutError (expired 0 5)),
        [Register 3; Select (1 # 5) false]) /\
  released [Register 3; Select (1 # 5) false] = false.
Proof. split; reflexivity. Qed.

(** *** Timeouts *)

(** C2 fails on the code, on both of its timeout paths.  On the poll
    path the message is built from the variable [size], which the loop has
    counted down by then: two bytes arrive, then nothing, [read(d, 5, 1)]:
    the TimeoutError reports 2 against 3, not 2 against the 5 that were
    asked for. *)
Theorem poll_timeout_reports_counted_down_size :
  nonblocking_read stalls (RawFd 3) 5 1 =
  Some (Raise (TimeoutError (expired 2 3)),
        [Register 3; Select (10 # 10) true;
         OsRead 3 5 (Data [Byte.x61; Byte.x62]); Select (9 # 10) false]) /\
  len (received [Register 3; Select (10 # 10) true;
                 OsRead 3 5 (Data [Byte.x61; Byte.x62]);
                 Select (9 # 10) false]) = 2 /\
  ints (expired 2 3) = [2; 3] /\
  ints (expired 2 3) <> [2; 5].
Proof. repeat split. discriminate. Qed.

(** On the other path, the clock has passed the deadline when
    [sw.remaining] is first queried: the stopwatch raises its own
    TimeoutError, whose message is a template that was never filled in,
    and that one reports neither the bytes accumulated (0) nor the bytes
    requested (5). *)
Lemma deadline_error_reports_no_bytes :
  nonblocking_read late (RawFd 3) 5 1 =
  Some (Raise (TimeoutError Stopwatch.surpassed), [Register 3]) /\
  ints Stopwatch.surpassed <> [len (received [Register 3]); 5].
Proof. split; [reflexivity | discriminate]. Qed.

(** *** Reading *)

Lemma asks_for_finish (size0 : Z) (g : frame) (x : leave)
    (w : world) (fd : Z) (sw : Stopwatch.t) :
  asks_for size0 (log g) ->
  size g = size0 - len (received (log g)) ->
  body w fd sw g = Leave x ->
  asks_for size0 (snd (finish x)).
Proof.
  intros Hasks Hsize Hb. destruct x as [f' | e f']; cbn [finish snd].
  - destruct (body_broke _ _ _ _ _ Hb)
      as (wait & read & chunk & _ & _ & _ & _ & ->).
    cbn [log]. apply asks_for_app. split; [| exact I].
    apply asks_for_app. split; [exact Hasks |]. cbn. rewrite <- Hsize. tauto.
  - destruct (body_raised _ _ _ _ _ _ Hb)
      as [[_ ->] | [(wait & _ & _ & _ & ->)
         | [(wait & read & errno & _ & _ & _ & -> & _)
           | (wait & read & chunk & _ & _ & _ & _ & -> & _)]]];
      cbn [log logged]; try exact Hasks;
      apply asks_for_app; (split; [exact Hasks |]); cbn;
      rewrite <- ?Hsize; tauto.
Qed.

(** C3: in a call that passed the validation, every read asks for exactly
    the bytes still wanted at that point (the caller's [size] less the
    bytes handed over by the reads before it); when a read brings the
    wanted count to zero the call returns, and returns [size] bytes; and
    a call that returns without having met the end of the stream returns
    [size] bytes. *)
Theorem reads_until_size (w : world) (fd : descriptor) (size0 : Z)
    (timeout : Q) :
  valid w fd size0 timeout ->
  (forall (r : result bytes) (l : list syscall),
     nonblocking_read w fd size0 timeout = Some (r, l) ->
     asks_for size0 l) /\
  (forall (g : frame) (wait : Q) (read : Z -> os_reply) (chunk : bytes),
     reaches w (fileno fd) (stopwatch_of w timeout) size0 g ->
     Stopwatch.remaining (stopwatch_of w timeout)
       (monotonic (ticks w (iteration g))) = Return wait ->
     select (ticks w (iteration g)) = Ready read ->
     read (size g) = Data chunk ->
     size g - len chunk = 0 ->
     nonblocking_read w fd size0 timeout =
     Some (Return (buf g ++ chunk),
           log g ++ [Select wait true;
                     OsRead (fileno fd) (size g) (Data chunk); Close]) /\
     len (buf g ++ chunk) = size0) /\
  (forall (b : bytes) (l : list syscall),
     nonblocking_read w fd size0 timeout = Some (Return b, l) ->
     saw_eof l = false ->
     len b = size0).
Proof.
  intro Hvalid. pose proof Hvalid as (_ & Hpos & _).
  split; [| split; [intros g wait read chunk H H0 H1 H2 H3; split |]].
  - intros r l H.
    destruct (nonblocking_read_inv w fd size0 timeout Hvalid _ H)
      as (g & x & Hg & Hb & Hout).
    destruct (reaches_steady w fd size0 timeout g Hpos Hg)
      as [Hsize _ _ Hbuf _ _ Hasks].
    change l with (snd (r, l)). rewrite Hout.
    apply asks_for_finish with (g := g) (w := w) (fd := fileno fd)
      (sw := stopwatch_of w timeout); auto.
    now rewrite Hbuf.
  - destruct (reaches_steady w fd size0 timeout g Hpos H)
      as [Hsize Hwant _ _ _ _ _].
    assert (Hne : chunk <> []).
    { intros ->. unfold len in H3; cbn in H3. lia. }
    pose proof (body_filled w (fileno fd) (stopwatch_of w timeout)
                  g wait read chunk H0 H1 H2 Hne H3) as Hb.
    rewrite (nonblocking_read_from w fd size0 timeout Hvalid g _ H Hb).
    cbn [finish buf log]. now rewrite <- app_assoc.
  - destruct (reaches_steady w fd size0 timeout g Hpos H)
      as [Hsize _ _ _ _ _ _].
    rewrite len_app. lia.
  - intros b l H Heof.
    destruct (nonblocking_read_inv w fd size0 timeout Hvalid _ H)
      as (g & x & Hg & Hb & Hout).
    destruct (reaches_steady w fd size0 timeout g Hpos Hg)
      as [Hsize _ _ _ _ _ _].
    destruct x as [f' | e f']; [| discriminate].
    cbn in Hout. injection Hout as Hbuf Hl. subst b l.
    destruct (body_broke _ _ _ _ _ Hb)
      as (wait & read & chunk & _ & _ & _ & Hchunk & ->).
    cbn [buf log] in *.
    destruct Hchunk as [-> | [_ Hzero]].
    + rewrite !saw_eof_app in Heof. cbn in Heof.
      rewrite orb_true_r in Heof. discriminate.
    + rewrite len_app. lia.
Qed.

Lemma reads_until_size_witness :
  nonblocking_read trickle (RawFd 3) 5 1 =
  Some (Return [Byte.x61; Byte.x62; Byte.x61; Byte.x62; Byte.x61],
        trickle_log) /\
  asks_for 5 trickle_log /\
  len [Byte.x61; Byte.x62; Byte.x61; Byte.x62; Byte.x61] = 5.
Proof.
  destruct (reads_until_size trickle (RawFd 3) 5 1) as (Hasks & _ & Hlen).
  - repeat split.
  - split; [reflexivity |]. split.
    + apply (Hasks (Return [Byte.x61; Byte.x62; Byte.x61; Byte.x62; Byte.x61])
               trickle_log).
      reflexivity.
    + apply (Hlen _ trickle_log); reflexivity.
Defined.

(** C4: in a call that passed the validation, a read that returns no byte
    ends the call at once with a normal return of the bytes accumulated so
    far (fewer than [size], none if nothing had been read), whatever is
    left of the timeout and of the wanted count; the selector is closed. *)
Theorem eof_returns_accumulated (w : world) (fd : descriptor) (size0 : Z)
    (timeout : Q) (g : frame) (wait : Q) (read : Z -> os_reply) :
  valid w fd size0 timeout ->
  reaches w (fileno fd) (stopwatch_of w timeout) size0 g ->
  Stopwatch.remaining (stopwatch_of w timeout)
    (monotonic (ticks w (iteration g))) = Return wait ->
  select (ticks w (iteration g)) = Ready read ->
  read (size g) = Data [] ->
  nonblocking_read w fd size0 timeout =
  Some (Return (buf g),
        log g ++ [Select wait true;
                  OsRead (fileno fd) (size g) (Data []); Close]) /\
  buf g = received (log g) /\
  len (buf g) < size0.
Proof.
  intros Hvalid Hg Hrem Hsel Hread. pose proof Hvalid as (_ & Hpos & _).
  destruct (reaches_steady w fd size0 timeout g Hpos Hg)
    as [Hsize Hwant _ Hbuf _ _ _].
  pose proof (body_eof w (fileno fd) (stopwatch_of w timeout) g wait read
                Hrem Hsel Hread) as Hb.
  rewrite (nonblocking_read_from w fd size0 timeout Hvalid g _ Hg Hb).
  cbn [finish buf log]. rewrite <- app_assoc.
  repeat split; [now rewrite Hbuf | lia].
Qed.

Lemma eof_returns_accumulated_witness :
  nonblocking_read closing (FileObj 4) 100 1 =
  Some (Return (buf closing_second),
        log closing_second ++
        [Select (9 # 10) true;
         OsRead (fileno (FileObj 4)) (size closing_second) (Data []);
         Close]) /\
  buf closing_second = received (log closing_second) /\
  len (buf closing_second) < 100.
Proof.
  apply (eof_returns_accumulated closing (FileObj 4) 100 1 closing_second
           (9 # 10) (hand_over [])).
  - repeat split.
  - apply reaches_next with (f := entry 4 100).
    + apply reaches_entry.
    + reflexivity.
  - reflexivity.
  - reflexivity.
  - reflexivity.
Defined.

(** *** Validation *)

(** C5, as the code has it: on a descriptor that is there and for which
    [os.get_blocking] answers, a call with the descriptor in blocking
    mode, or with [size <= 0], or with [timeout <= 0], raises a
    ValueError, and by then it has registered nothing, polled nothing and
    read nothing: its log is empty.  It raises no TimeoutError. *)
Theorem invalid_arguments_raise_before_io (w : world) (fd : descriptor)
    (size : Z) (timeout : Q) (mode : bool) :
  answers w fd mode ->
  mode = true \/ size <= 0 \/ (timeout <= 0)%Q ->
  (exists m : message,
     nonblocking_read w fd size timeout = Some (Raise (ValueError m), [])) /\
  (forall (m : message) (l : list syscall),
     nonblocking_read w fd size timeout <> Some (Raise (TimeoutError m), l)).
Proof.
  intros [Hfd Hnb] H.
  assert (Hv : exists m : message,
            nonblocking_read w fd size timeout
            = Some (Raise (ValueError m), [])).
  { unfold nonblocking_read. rewrite Hfd, Hnb.
    destruct mode; [eexists; reflexivity |].
    destruct (size <=? 0) eqn:Hsize; [eexists; reflexivity |].
    destruct (Qle_bool timeout 0) eqn:Htmo; [eexists; reflexivity |].
    exfalso. destruct H as [H | [H | H]].
    - discriminate.
    - apply Z.leb_gt in Hsize. lia.
    - apply Qle_bool_iff in H. congruence. }
  split; [exact Hv |].
  destruct Hv as [m' Hm']. intros m l. rewrite Hm'. discriminate.
Qed.

Lemma invalid_arguments_raise_before_io_witness :
  ((exists m : message,
      nonblocking_read blocking (RawFd 3) 5 1
      = Some (Raise (ValueError m), [])) /\
   (forall (m : message) (l : list syscall),
      nonblocking_read blocking (RawFd 3) 5 1
      <> Some (Raise (TimeoutError m), l))) /\
  ((exists m : message,
      nonblocking_read trickle (RawFd 3) 0 1
      = Some (Raise (ValueError m), [])) /\
   (forall (m : message) (l : list syscall),
      nonblocking_read trickle (RawFd 3) 0 1
      <> Some (Raise (TimeoutError m), l))) /\
  ((exists m : message,
      nonblocking_read trickle (RawFd 3) 5 (-1)
      = Some (Raise (ValueError m), [])) /\
   (forall (m : message) (l : list syscall),
      nonblocking_read trickle (RawFd 3) 5 (-1)
      <> Some (Raise (TimeoutError m), l))).
Proof.
  split; [| split].
  - apply (invalid_arguments_raise_before_io blocking (RawFd 3) 5 1 true).
    + split; reflexivity.
    + left. reflexivity.
  - apply (invalid_arguments_raise_before_io trickle (RawFd 3) 0 1 false).
    + split; reflexivity.
    + right; left. lia.
  - apply (invalid_arguments_raise_before_io trickle (RawFd 3) 5 (-1) false).
    + split; reflexivity.
    + right; right. discriminate.
Defined.

(** C5 as stated fails on a descriptor that is not open: with
    [size = 0] the call raises the OSError of [os.get_blocking], which is
    called before [size] is looked at, and no ValueError. *)
Lemma unopened_descriptor_raises_oserror :
  (0 <= 0)%Z /\
  nonblocking_read unopened (RawFd (-1)) 0 1 = Some (Raise (OSError 9), []) /\
  ~ (exists m : message,
       nonblocking_read unopened (RawFd (-1)) 0 1
       = Some (Raise (ValueError m), [])).
Proof.
  split; [lia |]. split; [reflexivity |]. intros [m H]. discriminate H.
Qed.

(** *** The wanted count *)

Lemma hand_over_well_behaved (avail : bytes) (n : Z) (chunk : bytes) :
  hand_over avail n = Data chunk ->
  len chunk <= n.
Proof.
  unfold hand_over. destruct (n <? 0) eqn:E; [discriminate |].
  apply Z.ltb_ge in E. intro H. injection H as <-.
  unfold len. pose proof (firstn_le_length (Z.to_nat n) avail). lia.
Qed.

Lemma trickle_well_behaved : well_behaved trickle.
Proof.
  intros i read n chunk Hsel Hread. cbn in Hsel. injection Hsel as <-.
  now apply hand_over_well_behaved with (avail := [Byte.x61; Byte.x62]).
Qed.

(** C8: in a call that passed the validation, with an [os.read] that never
    hands over more than it is asked for: at the head of every turn of the
    loop [size] is the caller's [size] less the length of [buf] and is not
    negative, the same holds when the loop is left by [break], and the
    call never raises the AssertionError of [assert size >= 0]. *)
Theorem wanted_count_invariant (w : world) (fd : descriptor) (size0 : Z)
    (timeout : Q) :
  valid w fd size0 timeout ->
  well_behaved w ->
  (forall f : frame,
     reaches w (fileno fd) (stopwatch_of w timeout) size0 f ->
     size f = size0 - len (buf f) /\ 0 <= size f) /\
  (forall f f' : frame,
     reaches w (fileno fd) (stopwatch_of w timeout) size0 f ->
     body w (fileno fd) (stopwatch_of w timeout) f = Leave (Broke f') ->
     size f' = size0 - len (buf f') /\ 0 <= size f') /\
  (forall f f' : frame,
     reaches w (fileno fd) (stopwatch_of w timeout) size0 f ->
     body w (fileno fd) (stopwatch_of w timeout) f
     <> Leave (Raised AssertionError f')) /\
  (forall l : list syscall,
     nonblocking_read w fd size0 timeout <> Some (Raise AssertionError, l)).
Proof.
  intros Hvalid Hwb. pose proof Hvalid as (_ & Hpos & _).
  assert (Hassert : forall f f' : frame,
     reaches w (fileno fd) (stopwatch_of w timeout) size0 f ->
     body w (fileno fd) (stopwatch_of w timeout) f
     <> Leave (Raised AssertionError f')).
  { intros f f' Hf Hb.
    destruct (body_raised _ _ _ _ _ _ Hb)
      as [[Hrem _] | [(wait & _ & _ & He & _)
         | [(wait & read & errno & _ & _ & He & _)
           | (wait & read & chunk & Hsel & Hread & Hlt & _)]]];
      try discriminate He.
    - unfold Stopwatch.remaining, Stopwatch.elapsed in Hrem.
      destruct (Stopwatch.timeout _); [| discriminate].
      destruct (Stopwatch.start_time _); [| discriminate].
      destruct (Qltb _ _); discriminate.
    - pose proof (Hwb _ _ _ _ Hsel Hread). lia. }
  repeat split.
  - now destruct (reaches_steady w fd size0 timeout f Hpos H).
  - destruct (reaches_steady w fd size0 timeout f Hpos H). lia.
  - destruct (reaches_steady w fd size0 timeout f Hpos H)
      as [Hsize Hwant _ _ _ _ _].
    destruct (body_broke _ _ _ _ _ H0)
      as (wait & read & chunk & _ & _ & _ & _ & ->).
    cbn [size buf]. rewrite len_app. lia.
  - destruct (reaches_steady w fd size0 timeout f Hpos H)
      as [Hsize Hwant _ _ _ _ _].
    destruct (body_broke _ _ _ _ _ H0)
      as (wait & read & chunk & _ & _ & _ & Hchunk & ->).
    cbn [size buf].
    destruct Hchunk as [-> | [_ Hzero]]; [unfold len; cbn |]; lia.
  - exact Hassert.
  - intros l H.
    destruct (nonblocking_read_inv w fd size0 timeout Hvalid _ H)
      as (g & x & Hg & Hb & Hout).
    destruct x as [f' | e f']; [discriminate |].
    cbn in Hout. injection Hout as He Hl. subst e.
    exact (Hassert g f' Hg Hb).
Qed.

Lemma wanted_count_invariant_witness :
  (forall f : frame,
     reaches trickle (fileno (RawFd 3)) (stopwatch_of trickle 1) 5 f ->
     size f = 5 - len (buf f) /\ 0 <= size f) /\
  (forall f f' : frame,
     reaches trickle (fileno (RawFd 3)) (stopwatch_of trickle 1) 5 f ->
     body trickle (fileno (RawFd 3)) (stopwatch_of trickle 1) f
     = Leave (Broke f') ->
     size f' = 5 - len (buf f') /\ 0 <= size f') /\
  (forall f f' : frame,
     reaches trickle (fileno (RawFd 3)) (stopwatch_of trickle 1) 5 f ->
     body trickle (fileno (RawFd 3)) (stopwatch_of trickle 1) f
     <> Leave (Raised AssertionError f')) /\
  (forall l : list syscall,
     nonblocking_read trickle (RawFd 3) 5 1
     <> Some (Raise AssertionError, l)).
Proof.
  apply (wanted_count_invariant trickle (RawFd 3) 5 1).
  - repeat split.
  - exact trickle_well_behaved.
Defined.

(** The assumption on [os.read] is needed: handed three bytes when it asked
    for two, the call fails its assertion. *)
Example oversized_read_fails_assertion :
  nonblocking_read rude (RawFd 3) 2 1 =
  Some (Raise AssertionError,
        [Register 3; Select (10 # 10) true;
         OsRead 3 2 (Data [Byte.x61; Byte.x62; Byte.x63])]).
Proof. reflexivity. Qed.

(** ** replace_control_chars *)

Section SanitizeFacts.

Local Open Scope N_scope.

(** What the loop does to one character. *)
Let keep (char : N) : N :=
  if contains pystring.printable char then char else 95.

Lemma sanitize_map (s acc : pystr) : sanitize s acc = acc ++ map keep s.
Proof.
  revert acc. induction s as [| c s IH]; intro acc; cbn [sanitize map].
  - now rewrite app_nil_r.
  - rewrite IH, <- app_assoc. unfold keep.
    now destruct (contains pystring.printable c).
Qed.

Lemma replace_control_chars_map (s : pystr) :
  replace_control_chars s = map keep s.
Proof. unfold replace_control_chars. now rewrite sanitize_map. Qed.

(** [string.printable] is the characters 9 to 13 and 32 to 126. *)
Lemma printable_codes (c : N) :
  contains pystring.printable c
  = (9 <=? c) && (c <=? 13) || (32 <=? c) && (c <=? 126).
Proof.
  destruct (c <=? 126) eqn:Hc.
  - apply N.leb_le in Hc.
    assert (Hall : forallb
              (fun c => Bool.eqb (contains pystring.printable c)
                          ((9 <=? c) && (c <=? 13)
                           || (32 <=? c) && (c <=? 126)))
              (map N.of_nat (seq 0 127)) = true) by (vm_compute; reflexivity).
    rewrite forallb_forall in Hall.
    assert (Hin : In c (map N.of_nat (seq 0 127))).
    { apply in_map_iff. exists (N.to_nat c). split; [apply N2Nat.id |].
      apply in_seq. lia. }
    specialize (Hall c Hin). apply eqb_prop in Hall.
    rewrite Hall. apply N.leb_le in Hc. now rewrite Hc.
  - rewrite andb_false_r, orb_false_r.
    apply N.leb_gt in Hc.
    destruct (c <=? 13) eqn:E; [apply N.leb_le in E; lia |].
    rewrite andb_false_r.
    destruct (contains pystring.printable c) eqn:Hp; [| reflexivity].
    unfold contains in Hp. apply existsb_exists in Hp.
    destruct Hp as (x & Hx & Heq). apply N.eqb_eq in Heq. subst x.
    assert (Hall : forallb (fun x => x <=? 126) pystring.printable = true)
      by (vm_compute; reflexivity).
    rewrite forallb_forall in Hall. specialize (Hall c Hx).
    apply N.leb_le in Hall. lia.
Qed.

Lemma keep_printable (c : N) : contains pystring.printable (keep c) = true.
Proof.
  unfold keep. destruct (contains pystring.printable c) eqn:E; [exact E |].
  vm_compute. reflexivity.
Qed.

Lemma keep_fixed (c : N) :
  keep c = c <-> contains pystring.printable c = true.
Proof.
  split.
  - intro H. rewrite <- H. apply keep_printable.
  - intro H. unfold keep. now rewrite H.
Qed.

(** X1: [replace_control_chars] works character by character: it keeps
    the characters with code 9 to 13 (tab, line feed, vertical tab, form
    feed, carriage return) and 32 to 126, and puts an underscore for every
    other one, the other control characters and all that is not ASCII. *)
Theorem replace_control_chars_pointwise (s : pystr) :
  replace_control_chars s =
  map (fun c => if (9 <=? c) && (c <=? 13) || (32 <=? c) && (c <=? 126)
                then c else 95) s.
Proof.
  rewrite replace_control_chars_map. apply map_ext. intro c.
  unfold keep. now rewrite printable_codes.
Qed.

(** X2: the sanitized string has the length of the untrusted one. *)
Theorem replace_control_chars_length (s : pystr) :
  List.length (replace_control_chars s) = List.length s.
Proof. rewrite replace_control_chars_map. apply length_map. Qed.

(** X3: every character of the sanitized string is in
    [string.printable]. *)
Theorem replace_control_chars_printable (s : pystr) :
  forallb (contains pystring.printable) (replace_control_chars s) = true.
Proof.
  rewrite replace_control_chars_map. apply forallb_forall.
  intros c Hc. apply in_map_iff in Hc. destruct Hc as (x & <- & _).
  apply keep_printable.
Qed.

(** X4: sanitizing twice is sanitizing once. *)
Theorem replace_control_chars_idempotent (s : pystr) :
  replace_control_chars (replace_control_chars s) = replace_control_chars s.
Proof.
  rewrite !replace_control_chars_map, map_map. apply map_ext.
  intro c. apply keep_fixed, keep_printable.
Qed.

(** X5: the strings that [replace_control_chars] leaves as they are are
    those made of characters of [string.printable] only. *)
Theorem replace_control_chars_fixed (s : pystr) :
  replace_control_chars s = s <->
  forallb (contains pystring.printable) s = true.
Proof.
  rewrite replace_control_chars_map.
  induction s as [| c s IH]; cbn [map forallb].
  - tauto.
  - rewrite andb_true_iff, <- IH, <- keep_fixed. split.
    + intro H. injection H as H1 H2. now split.
    + intros [H1 H2]. now rewrite H1, H2.
Qed.

(** X6: sanitizing a concatenation is concatenating the sanitized
    parts. *)
Theorem replace_control_chars_app (s t : pystr) :
  replace_control_chars (s ++ t)
  = replace_control_chars s ++ replace_control_chars t.
Proof. rewrite !replace_control_chars_map. apply map_app. Qed.

End SanitizeFacts.

(** ** More about the stopwatch *)

Section StopwatchMore.

Import Stopwatch.
Local Open Scope Q_scope.

Lemma or_none (y : Q) : or_ None y = y.
Proof. reflexivity. Qed.

(** X7: a stopwatch that was never started answers neither query,
    whatever the clock reads: [elapsed] raises a RuntimeError, and so does
    [remaining], with or without a timeout; it never raises the
    TimeoutError nor returns. *)
Theorem not_started_raises (self : t) (now : Q) :
  start_time self = None ->
  elapsed self now
  = Raise (RuntimeError [Text "The stopwatch has not started yet"]) /\
  (exists m : message, remaining self now = Raise (RuntimeError m)).
Proof.
  intro Hs. assert (He : elapsed self now
    = Raise (RuntimeError [Text "The stopwatch has not started yet"])).
  { unfold elapsed. now rewrite Hs. }
  split; [exact He |]. unfold remaining. rewrite He.
  destruct (timeout self); eexists; reflexivity.
Qed.

Lemma not_started_raises_witness :
  elapsed (stop (__init__ (Some 1)) 4) 9
  = Raise (RuntimeError [Text "The stopwatch has not started yet"]) /\
  (exists m : message,
     remaining (stop (__init__ (Some 1)) 4) 9 = Raise (RuntimeError m)).
Proof.
  apply (not_started_raises (stop (__init__ (Some 1)) 4) 9). reflexivity.
Defined.

Lemma remaining_running (self : t) (s tmo now : Q) :
  start_time self = Some s ->
  end_time self = None ->
  timeout self = Some tmo ->
  remaining self now =
  if Qltb (tmo - (now - s)) 0 then Raise (TimeoutError surpassed)
  else Return (tmo - (now - s)).
Proof.
  intros Hs He Ht. unfold remaining, elapsed. now rewrite Ht, Hs, He.
Qed.

(** X8: on a stopwatch that is running (started, not stopped) the
    remaining time does not go up as the clock goes up, and the deadline
    is final: where [remaining] returns at a later reading of the clock
    it returned at every earlier one, with no less left, and once it has
    raised the TimeoutError it raises it at every later reading. *)
Theorem remaining_decreases (self : t) (s tmo now later : Q) :
  start_time self = Some s ->
  end_time self = None ->
  timeout self = Some tmo ->
  now <= later ->
  (forall r' : Q,
     remaining self later = Return r' ->
     exists r : Q, remaining self now = Return r /\ r' <= r) /\
  (forall m : message,
     remaining self now = Raise (TimeoutError m) ->
     remaining self later = Raise (TimeoutError m)).
Proof.
  intros Hs He Ht Hle.
  rewrite (remaining_running self s tmo now Hs He Ht).
  rewrite (remaining_running self s tmo later Hs He Ht).
  split.
  - intros r' H. destruct (Qltb (tmo - (later - s)) 0) eqn:E1;
      [discriminate |].
    injection H as <-. apply Qltb_ge in E1.
    destruct (Qltb (tmo - (now - s)) 0) eqn:E2.
    + apply Qltb_lt in E2. lra.
    + eexists. split; [reflexivity | lra].
  - intros m H. destruct (Qltb (tmo - (now - s)) 0) eqn:E1;
      [| discriminate].
    apply Qltb_lt in E1.
    destruct (Qltb (tmo - (later - s)) 0) eqn:E2; [exact H |].
    apply Qltb_ge in E2. lra.
Qed.

Lemma remaining_decreases_witness :
  (forall r' : Q,
     remaining one_second (3 # 4) = Return r' ->
     exists r : Q, remaining one_second (1 # 4) = Return r /\ r' <= r) /\
  (forall m : message,
     remaining one_second (1 # 4) = Raise (TimeoutError m) ->
     remaining one_second (3 # 4) = Raise (TimeoutError m)).
Proof.
  apply (remaining_decreases one_second 0 1 (1 # 4) (3 # 4)).
  - reflexivity.
  - reflexivity.
  - reflexivity.
  - discriminate.
Defined.

(** X9: on a stopwatch stopped while the clock read something other than
    zero, [remaining] does not depend on the clock any more: whenever it
    is asked it answers the same, the timeout less the time from start to
    stop, or the same error. *)
Theorem stopped_remaining_frozen (self : t) (s e now later : Q) :
  start_time self = Some s ->
  end_time self = Some e ->
  ~ e == 0 ->
  remaining self now = remaining self later /\
  (forall tmo : Q,
     timeout self = Some tmo ->
     0 <= tmo - (e - s) ->
     remaining self now = Return (tmo - (e - s))).
Proof.
  intros Hs He Hnz.
  pose proof (elapsed_frozen self s e now Hs He Hnz) as H1.
  pose proof (elapsed_frozen self s e later Hs He Hnz) as H2.
  split.
  - unfold remaining. now rewrite H1, H2.
  - intros tmo Ht Hge. now apply remaining_returns.
Qed.

Lemma stopped_remaining_frozen_witness :
  remaining (stop one_second (1 # 4)) 5
  = remaining (stop one_second (1 # 4)) 50 /\
  (forall tmo : Q,
     timeout (stop one_second (1 # 4)) = Some tmo ->
     0 <= tmo - ((1 # 4) - 0) ->
     remaining (stop one_second (1 # 4)) 5 = Return (tmo - ((1 # 4) - 0))).
Proof.
  apply (stopped_remaining_frozen (stop one_second (1 # 4)) 0 (1 # 4) 5 50).
  - reflexivity.
  - reflexivity.
  - discriminate.
Defined.

(** X10: with a clock that does not run backwards, a stopwatch started,
    then stopped, answers an elapsed time that is not negative and not
    more than the time since the start; that holds as well when the clock
    read zero at the stop. *)
Theorem elapsed_bounds (self : t) (s e now : Q) :
  s <= e ->
  e <= now ->
  exists v : Q,
    elapsed (stop (start self s) e) now = Return v /\
    0 <= v /\ v <= now - s.
Proof.
  intros Hse Hen. unfold elapsed, stop, start, __exit__, __enter__.
  cbn [start_time end_time or_].
  eexists. split; [reflexivity |].
  destruct (Qeq_bool e 0); lra.
Qed.

Lemma elapsed_bounds_witness :
  exists v : Q,
    elapsed (stop (start (__init__ None) 0) 0) 7 = Return v /\
    0 <= v /\ v <= 7 - 0.
Proof.
  apply (elapsed_bounds (__init__ None) 0 0 7); discriminate.
Defined.

End StopwatchMore.

(** ** More about nonblocking_read *)

Section ReadMore.

Variables (w : world) (fd : descriptor) (size0 : Z) (timeout : Q).

Lemma returned_valid (b : bytes) (l : list syscall) :
  nonblocking_read w fd size0 timeout = Some (Return b, l) ->
  valid w fd size0 timeout.
Proof.
  intro H.
  destruct (validated_or_not w fd size0 timeout) as [Hv | [e He]];
    [exact Hv |].
  rewrite He in H. discriminate.
Qed.

Lemma remaining_in_call (now : Q) :
  Stopwatch.remaining (stopwatch_of w timeout) now =
  if Qltb (timeout - (now - started_at w)) 0
  then Raise (TimeoutError Stopwatch.surpassed)
  else Return (timeout - (now - started_at w))%Q.
Proof. now apply remaining_running. Qed.

Lemma remaining_in_call_returns (now wait : Q) :
  Stopwatch.remaining (stopwatch_of w timeout) now = Return wait ->
  wait = (timeout - (now - started_at w))%Q /\ (0 <= wait)%Q.
Proof.
  rewrite remaining_in_call.
  destruct (Qltb _ _) eqn:E; [discriminate |].
  intro H. injection H as <-. split; [reflexivity |].
  now apply Qltb_ge in E.
Qed.

Lemma remaining_in_call_raises (now : Q) (e : exn) :
  Stopwatch.remaining (stopwatch_of w timeout) now = Raise e ->
  e = TimeoutError Stopwatch.surpassed.
Proof.
  rewrite remaining_in_call. destruct (Qltb _ _); [| discriminate].
  intro H. now injection H as <-.
Qed.

Lemma polled_app (l l' : list syscall) :
  polled l -> polled l' -> polled (l ++ l').
Proof.
  intros Hl Hl'. induction Hl as [| wait fd' n r l Hl IH]; [exact Hl' |].
  cbn [app]. now apply polled_turn.
Qed.


Lemma waits_app (l l' : list syscall) : waits (l ++ l') = waits l ++ waits l'.
Proof.
  induction l as [| c l IH]; [reflexivity |].
  destruct c; cbn [app waits]; now rewrite ?IH.
Qed.

Lemma reads_app (l l' : list syscall) :
  reads (l ++ l') = (reads l + reads l')%nat.
Proof. unfold reads. now rewrite filter_app, length_app. Qed.

(** What the log of a frame at the head of the loop looks like. *)
Lemma reaches_log (f : frame) :
  reaches w (fileno fd) (stopwatch_of w timeout) size0 f ->
  (exists l : list syscall, log f = Register (fileno fd) :: l /\ polled l) /\
  reads (log f) = iteration f /\
  waits (log f) = map (budget w timeout) (seq 0 (iteration f)) /\
  Forall (fun q => 0 <= q)%Q (waits (log f)).
Proof.
  intro Hr. induction Hr as [| f f' Hr IH Hstep].
  - cbn. repeat split; [| constructor]. eexists. split; [reflexivity |].
    constructor.
  - destruct IH as ((l & Hl & Hp) & Hreads & Hwaits & Hpos).
    destruct (body_continue _ _ _ f f' Hstep)
      as (wait & read & chunk & Hrem & _ & _ & _ & _ & ->).
    apply remaining_in_call_returns in Hrem. destruct Hrem as [Hw Hw0].
    cbn [log iteration]. repeat split.
    + exists (l ++ [Select wait true;
                    OsRead (fileno fd) (size f) (Data chunk)]).
      split; [now rewrite Hl |].
      apply polled_app; [exact Hp |]. apply polled_turn. constructor.
    + rewrite reads_app, Hreads. cbn. lia.
    + rewrite waits_app, Hwaits, seq_S, map_app. cbn. now rewrite Hw.
    + rewrite waits_app. apply Forall_app. split; [exact Hpos |].
      cbn. constructor; [exact Hw0 | constructor].
Qed.

Hypothesis Hvalid : valid w fd size0 timeout.

(** The log of a call: that of the frame in which the loop was left, and
    what the last turn added. *)
Lemma call_log (r : result bytes) (l : list syscall) :
  nonblocking_read w fd size0 timeout = Some (r, l) ->
  exists (g : frame) (tail : list syscall),
    reaches w (fileno fd) (stopwatch_of w timeout) size0 g /\
    l = log g ++ tail /\
    ((tail = [] /\ r = Raise (TimeoutError Stopwatch.surpassed)) \/
     (exists wait : Q,
        (0 <= wait)%Q /\ wait = budget w timeout (iteration g) /\
        (tail = [Select wait false] /\
         r = Raise (TimeoutError (expired (len (buf g)) (size g))) \/
         exists reply : os_reply,
           tail = [Select wait true;
                   OsRead (fileno fd) (size g) reply] /\
           (r = Raise AssertionError \/
            exists errno : Z, r = Raise (OSError errno)) \/
           tail = [Select wait true;
                   OsRead (fileno fd) (size g) reply; Close] /\
           exists b : bytes, r = Return b))).
Proof.
  intro H.
  destruct (nonblocking_read_inv w fd size0 timeout Hvalid _ H)
    as (g & x & Hg & Hb & Hout).
  exists g.
  pose proof (body_turn w (fileno fd) (stopwatch_of w timeout) g) as T.
  rewrite Hb in T. clear Hb H.
  inversion T as [e Hrem | wait Hrem Hsel | wait read s Hrem Hsel Hafter];
    subst; clear T.
  - apply remaining_in_call_raises in Hrem. subst e.
    cbn [finish] in Hout. injection Hout as -> ->.
    exists []. split; [exact Hg |]. split; [now rewrite app_nil_r |].
    now left.
  - apply remaining_in_call_returns in Hrem. destruct Hrem as [Hw Hw0].
    cbn [finish log logged] in Hout. injection Hout as -> ->.
    eexists. split; [exact Hg |]. split; [reflexivity |].
    right. exists wait. repeat split; auto.
  - apply remaining_in_call_returns in Hrem. destruct Hrem as [Hw Hw0].
    revert Hw Hw0. inversion Hafter; subst; clear Hafter; intros Hw Hw0;
      cbn [finish log logged set_buf set_size buf] in Hout;
      injection Hout as -> ->;
      (eexists; split; [exact Hg |]; split;
       [rewrite <- ?app_assoc; cbn [app]; reflexivity |]);
      right; exists wait; (split; [exact Hw0 |]); (split; [exact Hw |]);
      right; eexists.
    + left. split; [reflexivity |]. right. now eexists.
    + right. split; [reflexivity |]. now eexists.
    + left. split; [reflexivity |]. now left.
    + right. split; [reflexivity |]. now eexists.
Qed.

End ReadMore.

Lemma tenths_monotone (i j : nat) :
  (i <= j)%nat -> (tenths i <= tenths j)%Q.
Proof. intro H. unfold tenths, Qle. cbn. lia. Qed.

Lemma tenths_nonneg (i : nat) : (0 <= tenths i)%Q.
Proof. unfold tenths, Qle. cbn. lia. Qed.

Lemma trickle_clock_monotone : clock_monotone trickle.
Proof.
  split.
  - intro i. apply tenths_nonneg.
  - intros i j H. now apply tenths_monotone.
Qed.

(** X11: what a call returns is what its reads handed over, chunk after
    chunk in the order of the reads: nothing is lost, doubled or put in. *)
Theorem returned_is_received (w : world) (fd : descriptor) (size0 : Z)
    (timeout : Q) (b : bytes) (l : list syscall) :
  nonblocking_read w fd size0 timeout = Some (Return b, l) ->
  b = received l.
Proof.
  intro H. pose proof (returned_valid _ _ _ _ _ _ H) as Hvalid.
  destruct (nonblocking_read_inv w fd size0 timeout Hvalid _ H)
    as (g & x & Hg & Hb & Hout).
  pose proof Hvalid as (_ & Hpos & _).
  destruct (reaches_steady w fd size0 timeout g Hpos Hg)
    as [_ _ _ Hbuf _ _ _].
  destruct x as [f' | e f']; [| discriminate].
  cbn in Hout. injection Hout as -> ->.
  destruct (body_broke _ _ _ _ _ Hb)
    as (wait & read & chunk & _ & _ & _ & _ & ->).
  cbn [buf log]. rewrite !received_app, Hbuf. cbn.
  now rewrite !app_nil_r.
Qed.

Lemma returned_is_received_witness :
  [Byte.x61; Byte.x62; Byte.x61; Byte.x62; Byte.x61] = received trickle_log.
Proof.
  apply (returned_is_received trickle (RawFd 3) 5 1). reflexivity.
Defined.

(** X12: a call never returns more than [size] bytes, and it returns fewer
    only when a read met the end of the stream. *)
Theorem short_return_only_at_eof (w : world) (fd : descriptor) (size0 : Z)
    (timeout : Q) (b : bytes) (l : list syscall) :
  nonblocking_read w fd size0 timeout = Some (Return b, l) ->
  len b <= size0 /\ (len b < size0 <-> saw_eof l = true).
Proof.
  intro H. pose proof (returned_valid _ _ _ _ _ _ H) as Hvalid.
  destruct (nonblocking_read_inv w fd size0 timeout Hvalid _ H)
    as (g & x & Hg & Hb & Hout).
  pose proof Hvalid as (_ & Hpos & _).
  destruct (reaches_steady w fd size0 timeout g Hpos Hg)
    as [Hsize Hwant _ _ _ Heof _].
  destruct x as [f' | e f']; [| discriminate].
  cbn in Hout. injection Hout as -> ->.
  destruct (body_broke _ _ _ _ _ Hb)
    as (wait & read & chunk & _ & _ & _ & Hchunk & ->).
  cbn [buf log]. rewrite !saw_eof_app, Heof, len_app.
  destruct Hchunk as [-> | [Hne Hzero]].
  - cbn. split; [lia |]. split; [reflexivity | lia].
  - destruct chunk as [| c chunk]; [congruence |].
    unfold saw_eof; cbn [existsb is_eof orb].
    split; [lia |]. split; [lia | discriminate].
Qed.

Lemma short_return_only_at_eof_witness :
  len (buf closing_second) <= 100 /\
  (len (buf closing_second) < 100 <->
   saw_eof (log closing_second ++
            [Select (9 # 10) true; OsRead 4 95 (Data []); Close]) = true).
Proof.
  apply (short_return_only_at_eof closing (FileObj 4) 100 1). reflexivity.
Defined.

(** X13: a call for [size] bytes polls at most [size] times, and reads at
    most once per poll. *)
Theorem polls_at_most_size (w : world) (fd : descriptor) (size0 : Z)
    (timeout : Q) (r : result bytes) (l : list syscall) :
  valid w fd size0 timeout ->
  nonblocking_read w fd size0 timeout = Some (r, l) ->
  (reads l <= List.length (waits l) <= Z.to_nat size0)%nat.
Proof.
  intros Hvalid H. pose proof Hvalid as (_ & Hpos & _).
  destruct (call_log w fd size0 timeout Hvalid r l H)
    as (g & tail & Hg & -> & Htail).
  destruct (reaches_steady w fd size0 timeout g Hpos Hg)
    as [Hsize Hwant Hturns _ _ _ _].
  destruct (reaches_log w fd size0 timeout g Hg)
    as (_ & Hreads & Hwaits & _).
  rewrite reads_app, waits_app, length_app, Hreads, Hwaits.
  rewrite length_map, length_seq.
  assert (Hit : (S (iteration g) <= Z.to_nat size0)%nat) by lia.
  destruct Htail
    as [[-> _] | (wait & _ & _ & [[-> _] | (reply & [[-> _] | [-> _]])])];
    cbn; lia.
Qed.

Lemma polls_at_most_size_witness :
  (reads trickle_log <= List.length (waits trickle_log) <= Z.to_nat 5)%nat.
Proof.
  apply (polls_at_most_size trickle (RawFd 3) 5 1
           (Return [Byte.x61; Byte.x62; Byte.x61; Byte.x62; Byte.x61])).
  - repeat split.
  - reflexivity.
Defined.

(** X14: the deadline of a call is set once, at its start: the poll of
    turn [j] is given the timeout less the time from the start of the call
    to the clock reading of that turn, whatever has been read in between,
    and it is never given a negative wait. *)
Theorem waits_measure_from_start (w : world) (fd : descriptor) (size0 : Z)
    (timeout : Q) (r : result bytes) (l : list syscall) :
  valid w fd size0 timeout ->
  nonblocking_read w fd size0 timeout = Some (r, l) ->
  waits l = map (budget w timeout) (seq 0 (List.length (waits l))) /\
  Forall (fun q => 0 <= q)%Q (waits l).
Proof.
  intros Hvalid H.
  destruct (call_log w fd size0 timeout Hvalid r l H)
    as (g & tail & Hg & -> & Htail).
  destruct (reaches_log w fd size0 timeout g Hg)
    as (_ & _ & Hwaits & Hpos).
  rewrite waits_app, length_app, Hwaits, length_map, length_seq.
  assert (Hone : forall (wait : Q) (t : list syscall),
            (0 <= wait)%Q ->
            wait = budget w timeout (iteration g) ->
            waits t = [wait] ->
            (map (budget w timeout) (seq 0 (iteration g)) ++ waits t
             = map (budget w timeout)
                 (seq 0 (iteration g + List.length (waits t))) /\
             Forall (fun q => 0 <= q)%Q
               (map (budget w timeout) (seq 0 (iteration g)) ++ waits t))).
  { intros wait t Hw0 Hw Ht. rewrite Ht. cbn [List.length].
    rewrite Nat.add_1_r, seq_S, map_app. cbn. rewrite <- Hw.
    split; [reflexivity |]. apply Forall_app. rewrite <- Hwaits.
    split; [exact Hpos |]. constructor; [exact Hw0 | constructor]. }
  destruct Htail
    as [[-> _]
       | (wait & Hw0 & Hw & [[-> _] | (reply & [[-> _] | [-> _]])])];
    try (apply (Hone wait); [exact Hw0 | exact Hw | reflexivity]).
  cbn. rewrite app_nil_r, Nat.add_0_r. split; [reflexivity |].
  now rewrite <- Hwaits.
Qed.

Lemma waits_measure_from_start_witness :
  waits trickle_log
  = map (budget trickle 1) (seq 0 (List.length (waits trickle_log))) /\
  Forall (fun q => 0 <= q)%Q (waits trickle_log).
Proof.
  apply (waits_measure_from_start trickle (RawFd 3) 5 1
           (Return [Byte.x61; Byte.x62; Byte.x61; Byte.x62; Byte.x61])).
  - repeat split.
  - reflexivity.
Defined.

Lemma budget_sorted (w : world) (timeout : Q) (a k : nat) :
  clock_monotone w ->
  StronglySorted (fun x y => y <= x)%Q (map (budget w timeout) (seq a k)).
Proof.
  intros [_ Hmono]. revert a. induction k as [| k IH]; intro a; cbn.
  - constructor.
  - constructor; [apply IH |].
    apply Forall_forall. intros q Hq. apply in_map_iff in Hq.
    destruct Hq as (j & <- & Hj). apply in_seq in Hj.
    unfold budget. pose proof (Hmono a j ltac:(lia)). lra.
Qed.

(** X15: with a clock that does not run backwards, no poll of a call is
    given a wait above the timeout, and the waits of its successive polls
    never go up: reading part of the bytes does not buy time. *)
Theorem waits_within_timeout (w : world) (fd : descriptor) (size0 : Z)
    (timeout : Q) (r : result bytes) (l : list syscall) :
  valid w fd size0 timeout ->
  clock_monotone w ->
  nonblocking_read w fd size0 timeout = Some (r, l) ->
  Forall (fun q => 0 <= q /\ q <= timeout)%Q (waits l) /\
  StronglySorted (fun x y => y <= x)%Q (waits l).
Proof.
  intros Hvalid Hclock H.
  destruct (waits_measure_from_start w fd size0 timeout r l Hvalid H)
    as [Hw Hpos].
  split.
  - rewrite Forall_forall in *. intros q Hq. split; [now apply Hpos |].
    rewrite Hw in Hq. apply in_map_iff in Hq. destruct Hq as (j & <- & _).
    destruct Hclock as [Hstart _]. unfold budget.
    pose proof (Hstart j). lra.
  - rewrite Hw. now apply budget_sorted.
Qed.

Lemma waits_within_timeout_witness :
  Forall (fun q => 0 <= q /\ q <= 1)%Q (waits trickle_log) /\
  StronglySorted (fun x y => y <= x)%Q (waits trickle_log).
Proof.
  apply (waits_within_timeout trickle (RawFd 3) 5 1
           (Return [Byte.x61; Byte.x62; Byte.x61; Byte.x62; Byte.x61])).
  - repeat split.
  - exact trickle_clock_monotone.
  - reflexivity.
Defined.

(** X17: when [os.read] fails, in any turn of a call, the call raises the
    OSError of the read as it is; the bytes accumulated in the turns
    before are not returned. *)
Theorem read_error_propagates (w : world) (fd : descriptor) (size0 : Z)
    (timeout : Q) (g : frame) (wait : Q) (read : Z -> os_reply)
    (errno : Z) :
  valid w fd size0 timeout ->
  reaches w (fileno fd) (stopwatch_of w timeout) size0 g ->
  Stopwatch.remaining (stopwatch_of w timeout)
    (monotonic (ticks w (iteration g))) = Return wait ->
  select (ticks w (iteration g)) = Ready read ->
  read (size g) = Fails errno ->
  nonblocking_read w fd size0 timeout =
  Some (Raise (OSError errno),
        log g ++ [Select wait true;
                  OsRead (fileno fd) (size g) (Fails errno)]).
Proof.
  intros Hvalid Hg Hrem Hsel Hread.
  assert (Hb : body w (fileno fd) (stopwatch_of w timeout) g =
               Leave (Raised (OSError errno)
                        (logged (OsRead (fileno fd) (size g) (Fails errno))
                           (logged (Select wait true) g)))).
  { unfold body. rewrite Hrem, Hsel.
    cbn [logged size buf log iteration]. now rewrite Hread. }
  rewrite (nonblocking_read_from w fd size0 timeout Hvalid g _ Hg Hb).
  cbn [finish log logged]. now rewrite log_app_two.
Qed.

Lemma read_error_propagates_witness :
  nonblocking_read broken (RawFd 3) 5 1 =
  Some (Raise (OSError 5),
        log second_turn ++
        [Select (9 # 10) true;
         OsRead (fileno (RawFd 3)) (size second_turn) (Fails 5)]).
Proof.
  apply (read_error_propagates broken (RawFd 3) 5 1 second_turn (9 # 10)
           (fun _ => Fails 5) 5).
  - repeat split.
  - apply reaches_next with (f := entry 3 5).
    + apply reaches_entry.
    + reflexivity.
  - reflexivity.
  - reflexivity.
  - reflexivity.
Defined.

(** X18: the deadline wins over readiness: in a turn in which
    [sw.remaining] raises, the call raises that TimeoutError, the one of
    the stopwatch, without polling or reading in that turn, whether or
    not bytes are there to be read. *)
Theorem deadline_beats_readiness (w : world) (fd : descriptor) (size0 : Z)
    (timeout : Q) (g : frame) (e : exn) :
  valid w fd size0 timeout ->
  reaches w (fileno fd) (stopwatch_of w timeout) size0 g ->
  Stopwatch.remaining (stopwatch_of w timeout)
    (monotonic (ticks w (iteration g))) = Raise e ->
  e = TimeoutError Stopwatch.surpassed /\
  nonblocking_read w fd size0 timeout = Some (Raise e, log g).
Proof.
  intros Hvalid Hg Hrem.
  split; [now apply remaining_in_call_raises in Hrem |].
  assert (Hb : body w (fileno fd) (stopwatch_of w timeout) g =
               Leave (Raised e g)).
  { unfold body. now rewrite Hrem. }
  now rewrite (nonblocking_read_from w fd size0 timeout Hvalid g _ Hg Hb).
Qed.

Lemma deadline_beats_readiness_witness :
  TimeoutError Stopwatch.surpassed = TimeoutError Stopwatch.surpassed /\
  nonblocking_read overdue (RawFd 3) 5 1 =
  Some (Raise (TimeoutError Stopwatch.surpassed), log second_turn).
Proof.
  apply (deadline_beats_readiness overdue (RawFd 3) 5 1 second_turn).
  - repeat split.
  - apply reaches_next with (f := entry 3 5).
    + apply reaches_entry.
    + reflexivity.
  - reflexivity.
Defined.



(** ** get_resource_path and get_version *)

Section ResourceFacts.

Import Resources.

Variables (P : pathlib) (h : host).

Lemma str_eqb_eq (a b : pystr) : str_eqb a b = true <-> a = b.
Proof.
  unfold str_eqb. destruct (list_eq_dec N.eq_dec a b); split;
    congruence.
Qed.

(** X20: [get_resource_path] fails only on a system it does not know:
    it returns a path in development mode and on Darwin, Linux and
    Windows, and raises the NotImplementedError that names the system
    everywhere else; the name of the file plays no part in that. *)
Theorem get_resource_path_supported (filename : pystr) :
  ((exists name : pystr, get_resource_path P h filename = Ok name) <->
   dangerzone_dev h = true \/ system h = str_of "Darwin" \/
   system h = str_of "Linux" \/ system h = str_of "Windows") /\
  (forall e : error,
     get_resource_path P h filename = Err e ->
     e = NotImplementedError (str_of "Unsupported system " ++ system h)).
Proof.
  unfold get_resource_path.
  destruct (dangerzone_dev h).
  { split; [| discriminate]. split; [now left | now eexists]. }
  destruct (str_eqb (system h) (str_of "Darwin")) eqn:Ed.
  { apply str_eqb_eq in Ed. split; [| discriminate].
    split; [now right; left | now eexists]. }
  destruct (str_eqb (system h) (str_of "Linux")) eqn:El.
  { apply str_eqb_eq in El. split; [| discriminate].
    split; [now right; right; left | now eexists]. }
  destruct (str_eqb (system h) (str_of "Windows")) eqn:Ew.
  { apply str_eqb_eq in Ew. split; [| discriminate].
    split; [now right; right; right | now eexists]. }
  split.
  - split; [intros [name H]; discriminate |].
    intros [H | [H | [H | H]]]; [discriminate | | |];
      apply str_eqb_eq in H; congruence.
  - intros e H. now injection H as <-.
Qed.

(** X21: [get_version] never raises FileNotFoundError: when the version
    file is missing it returns "unknown"; an error of another kind met
    while reading goes on to the caller. *)
Theorem get_version_missing_file :
  get_version P h <> Err FileNotFoundError /\
  (forall name : pystr,
     get_resource_path P h (str_of "version.txt") = Ok name ->
     (read h name = Err FileNotFoundError ->
      get_version P h = Ok (str_of "unknown")) /\
     (forall errno : Z,
        read h name = Err (OtherError errno) ->
        get_version P h = Err (OtherError errno))).
Proof.
  unfold get_version. split.
  - destruct (read_version P h) as [v | [m | | errno]]; discriminate.
  - intros name Hname. unfold read_version. rewrite Hname.
    split; [intros -> | intros errno ->]; reflexivity.
Qed.

(** X22: on a system that [get_resource_path] does not know
    [get_version] does not answer "unknown": the NotImplementedError is
    raised inside the [try] and is not a FileNotFoundError, so it goes on
    to the caller, whatever the files are. *)
Theorem get_version_unsupported_system :
  dangerzone_dev h = false ->
  system h <> str_of "Darwin" ->
  system h <> str_of "Linux" ->
  system h <> str_of "Windows" ->
  get_version P h
  = Err (NotImplementedError (str_of "Unsupported system " ++ system h)).
Proof.
  intros Hdev Hd Hl Hw.
  destruct (get_resource_path P h (str_of "version.txt")) as [name | e]
    eqn:Hpath.
  - destruct (get_resource_path_supported (str_of "version.txt"))
      as [[Hok _] _].
    destruct (Hok (ex_intro _ name Hpath)) as [H | [H | [H | H]]];
      congruence.
  - destruct (get_resource_path_supported (str_of "version.txt"))
      as [_ He].
    specialize (He e Hpath). subst e.
    unfold get_version, read_version. now rewrite Hpath.
Qed.

Lemma lstrip_head (s : pystr) (c : N) (rest : pystr) :
  lstrip s = c :: rest -> isspace c = false.
Proof.
  induction s as [| a s IH]; cbn [lstrip]; [discriminate |].
  destruct (isspace a) eqn:E; [exact IH |].
  intro H. now injection H as <- _.
Qed.

Lemma lstrip_suffix (s : pystr) : exists p : pystr, s = p ++ lstrip s.
Proof.
  induction s as [| a s [p IH]]; cbn [lstrip]; [now exists [] |].
  destruct (isspace a); [| now exists []].
  exists (a :: p). cbn. now rewrite <- IH.
Qed.

Lemma rstrip_prefix (s : pystr) : exists q : pystr, s = rstrip s ++ q.
Proof.
  unfold rstrip. destruct (lstrip_suffix (rev s)) as [p Hp].
  exists (rev p). rewrite <- rev_app_distr, <- Hp. now rewrite rev_involutive.
Qed.

Lemma last_rev (l : pystr) (d : N) : last (rev l) d = hd d l.
Proof.
  destruct l as [| a l]; [reflexivity |]. cbn [rev hd]. apply last_last.
Qed.

Lemma strip_stripped (s : pystr) : stripped (strip s) = true.
Proof.
  unfold stripped. destruct (strip s) as [| c rest] eqn:E; [reflexivity |].
  apply andb_true_iff. split; apply negb_true_iff.
  - unfold strip in E. destruct (rstrip_prefix (lstrip s)) as [q Hq].
    rewrite E in Hq. cbn [app] in Hq. now apply lstrip_head in Hq.
  - rewrite <- E. unfold strip, rstrip. rewrite last_rev.
    destruct (lstrip (rev (lstrip s))) as [| a l] eqn:El.
    + unfold strip, rstrip in E. rewrite El in E. discriminate.
    + cbn [hd]. now apply lstrip_head in El.
Qed.

(** X23: the version that [get_version] returns neither starts nor ends
    with white space, whatever the file holds. *)
Theorem get_version_stripped (v : pystr) :
  get_version P h = Ok v ->
  stripped v = true.
Proof.
  unfold get_version, read_version.
  destruct (get_resource_path P h (str_of "version.txt")) as [name | e].
  - destruct (read h name) as [text | [m | | errno]]; try discriminate.
    + intro H. injection H as <-. apply strip_stripped.
    + intro H. now injection H as <-.
  - destruct e; try discriminate. intro H. now injection H as <-.
Qed.

End ResourceFacts.

Lemma get_version_unsupported_system_witness :
  Resources.get_version Resources.components Resources.unsupported
  = Resources.Err
      (Resources.NotImplementedError
         (str_of "Unsupported system "
          ++ Resources.system Resources.unsupported)).
Proof.
  apply (get_version_unsupported_system Resources.components
           Resources.unsupported); [reflexivity | | |]; discriminate.
Defined.

Lemma get_version_stripped_witness :
  stripped (str_of "0.4.1") = true.
Proof.
  apply (get_version_stripped Resources.components Resources.installed).
  reflexivity.
Defined.
